(** * Wiktionary translation extractor: a shallow embedding of
    [wiktionary_translation_extractor.py] and the properties of its
    argument splitter, term decoder, block tokenizer and page/block loop. *)

From Stdlib Require Import ZArith NArith Lia.
From Stdlib Require Import Strings.String Strings.Ascii.
From stdpp Require Import base option list gmap.

Local Open Scope Z_scope.
Local Open Scope list_scope.

(** ** Python values *)

(** A Python [str] is a sequence of Unicode code points. *)
Definition str : Type := list N.

(** [py "abc"] is the [str] of an ASCII literal of the source. *)
Definition py (s : string) : str := N_of_ascii <$> list_ascii_of_string s.
Arguments py : simpl never.

(** The exceptions the program can raise.  The three [TypeError]s of the
    source differ only by their message. *)
Inductive exn : Type :=
| TypeError (msg : string)
| IndexError
| ValueError
| AttributeError.

(** Names of the three failures of the argument splitter and the decoder. *)
Definition MalformedArguments : exn := TypeError "arguments is not of correct format".
Definition UnrecognizedTemplate : exn := TypeError "Incorrect list type".
Definition MissingRequiredArgument : exn :=
  TypeError "Missing required positional arguments".

Inductive outcome (A : Type) : Type :=
| Ok (a : A)
| Raise (e : exn).
Arguments Ok {A} a.
Arguments Raise {A} e.

#[global] Instance outcome_ret : MRet outcome := fun A a => Ok a.
#[global] Instance outcome_bind : MBind outcome := fun A B k r =>
  match r with
  | Ok a => k a
  | Raise e => Raise e
  end.

(** ** String and sequence primitives *)

Module Py.

(** [bool(s)] for a string: the empty string is false. *)
Definition truthy (s : str) : bool :=
  match s with
  | [] => false
  | _ :: _ => true
  end.

(** [s.startswith(p)] *)
Fixpoint startswith (p s : str) : bool :=
  match p, s with
  | [], _ => true
  | _ :: _, [] => false
  | a :: p', b :: s' => (a =? b)%N && startswith p' s'
  end.

(** [s.endswith(p)] *)
Definition endswith (p s : str) : bool := startswith (reverse p) (reverse s).

(** [s.index(sub)]: the lowest position at which [sub] occurs;
    [ValueError] when it does not occur. *)
Fixpoint find (sub s : str) : option nat :=
  if startswith sub s then Some 0%nat
  else match s with
       | [] => None
       | _ :: s' => S <$> find sub s'
       end.

Definition index (sub s : str) : outcome nat :=
  match find sub s with
  | Some i => Ok i
  | None => Raise ValueError
  end.

(** [sub in s] *)
Definition contains (sub s : str) : bool :=
  match find sub s with
  | Some _ => true
  | None => false
  end.

(** A slice bound [i] of a sequence of length [len], clamped as Python
    does: a negative bound counts from the end. *)
Definition bound (len i : Z) : Z :=
  if i <? 0 then Z.max 0 (len + i) else Z.min i len.

(** [l[start:stop]]; [None] is an omitted bound. *)
Definition slice {A : Type} (start stop : option Z) (l : list A) : list A :=
  let len := Z.of_nat (length l) in
  let a := match start with Some i => bound len i | None => 0 end in
  let b := match stop with Some i => bound len i | None => len end in
  take (Z.to_nat (b - a)) (drop (Z.to_nat a) l).

(** [str.isspace] on one code point. *)
Definition isspace (c : N) : bool :=
  ((9 <=? c) && (c <=? 13) || (28 <=? c) && (c <=? 32)
   || (c =? 133) || (c =? 160) || (c =? 5760)
   || (8192 <=? c) && (c <=? 8202)
   || (c =? 8232) || (c =? 8233) || (c =? 8239) || (c =? 8287)
   || (c =? 12288))%N.

Fixpoint lstrip (s : str) : str :=
  match s with
  | [] => []
  | c :: s' => if isspace c then lstrip s' else s
  end.

(** [s.strip()] *)
Definition strip (s : str) : str := reverse (lstrip (reverse (lstrip s))).

(** [s.split(sep)] for a one-character separator: never empty. *)
Fixpoint split (sep : N) (s : str) : list str :=
  match s with
  | [] => [[]]
  | c :: s' =>
      if (c =? sep)%N then [] :: split sep s'
      else match split sep s' with
           | seg :: segs => (c :: seg) :: segs
           | [] => [[c]]
           end
  end.

(** [sep.join(parts)] *)
Fixpoint join (sep : str) (parts : list str) : str :=
  match parts with
  | [] => []
  | [p] => p
  | p :: ps => p ++ sep ++ join sep ps
  end.

(** [s.replace(old, new)] for a non-empty [old]: occurrences are taken
    left to right and do not overlap; [skip] counts the characters of
    the occurrence just replaced that are still to be passed over. *)
Fixpoint replace_from (old new : str) (skip : nat) (s : str) : str :=
  match s with
  | [] => []
  | c :: s' =>
      match skip with
      | S k => replace_from old new k s'
      | O => if startswith old s
             then new ++ replace_from old new (length old - 1) s'
             else c :: replace_from old new 0 s'
      end
  end.

Definition replace (old new s : str) : str := replace_from old new 0 s.

End Py.

(** ** The data classes *)

Record Translation : Type := mkTranslation {
  language_code : str;
  translation : str;
  is_equivalent_term : bool;
  gender : option str;
  script_code : option str;
  transliteration : option str;
  alternate_form : option str;
  literal_translation : option str;
  qualifier : option str
}.

Record TranslationGroup : Type := mkTranslationGroup {
  meaning : str;
  translations : list Translation
}.

(** [Translation(language_code, translation)] with the defaults of the
    data class. *)
Definition new_Translation (lc tr : str) : Translation :=
  mkTranslation lc tr true None None None None None None.

Definition set_is_equivalent_term (b : bool) (t : Translation) : Translation :=
  mkTranslation (language_code t) (translation t) b (gender t) (script_code t)
    (transliteration t) (alternate_form t) (literal_translation t) (qualifier t).
Definition set_translation (v : str) (t : Translation) : Translation :=
  mkTranslation (language_code t) v (is_equivalent_term t) (gender t) (script_code t)
    (transliteration t) (alternate_form t) (literal_translation t) (qualifier t).
Definition set_gender (v : option str) (t : Translation) : Translation :=
  mkTranslation (language_code t) (translation t) (is_equivalent_term t) v (script_code t)
    (transliteration t) (alternate_form t) (literal_translation t) (qualifier t).
Definition set_script_code (v : option str) (t : Translation) : Translation :=
  mkTranslation (language_code t) (translation t) (is_equivalent_term t) (gender t) v
    (transliteration t) (alternate_form t) (literal_translation t) (qualifier t).
Definition set_transliteration (v : option str) (t : Translation) : Translation :=
  mkTranslation (language_code t) (translation t) (is_equivalent_term t) (gender t)
    (script_code t) v (alternate_form t) (literal_translation t) (qualifier t).
Definition set_alternate_form (v : option str) (t : Translation) : Translation :=
  mkTranslation (language_code t) (translation t) (is_equivalent_term t) (gender t)
    (script_code t) (transliteration t) v (literal_translation t) (qualifier t).
Definition set_literal_translation (v : option str) (t : Translation) : Translation :=
  mkTranslation (language_code t) (translation t) (is_equivalent_term t) (gender t)
    (script_code t) (transliteration t) (alternate_form t) v (qualifier t).
Definition set_qualifier (v : option str) (t : Translation) : Translation :=
  mkTranslation (language_code t) (translation t) (is_equivalent_term t) (gender t)
    (script_code t) (transliteration t) (alternate_form t) (literal_translation t) v.

(** ** [generate_arguments] *)

(** The loop state of [generate_arguments]: the positional arguments so
    far, the keyword dictionary so far and the [keywords] flag. *)
Record splitter : Type := mkSplitter {
  positional_arguments : list str;
  keyword_arguments : gmap str str;
  keywords : bool
}.

(** One iteration of the [for argument in arguments] loop. *)
Definition generate_arguments_step (acc : splitter) (argument : str) : outcome splitter :=
  if Py.contains (py "=") argument then
    split_index ← Py.index (py "=") argument;
    Ok (mkSplitter (positional_arguments acc)
          (<[ Py.slice None (Some (Z.of_nat split_index)) argument
              := Py.slice (Some (Z.of_nat split_index + 1)) None argument ]>
             (keyword_arguments acc))
          true)
  else if negb (keywords acc) then
    Ok (mkSplitter (positional_arguments acc ++ [argument])
          (keyword_arguments acc) (keywords acc))
  else Raise MalformedArguments.

Fixpoint generate_arguments_loop (acc : splitter) (arguments : list str)
  : outcome splitter :=
  match arguments with
  | [] => Ok acc
  | argument :: rest =>
      acc' ← generate_arguments_step acc argument;
      generate_arguments_loop acc' rest
  end.

Definition generate_arguments (arguments : list str)
  : outcome (list str * gmap str str) :=
  acc ← generate_arguments_loop (mkSplitter [] ∅ false) arguments;
  Ok (positional_arguments acc, keyword_arguments acc).

(** ** [decode_term] *)

(** [l[i]] for a list: [IndexError] out of range. *)
Definition item {A : Type} (l : list A) (i : nat) : outcome A :=
  match l !! i with
  | Some x => Ok x
  | None => Raise IndexError
  end.

(** The accepted template names. *)
Definition accepted_types : list str :=
  [py "t"; py "t+"; py "t-simple"; py "tt"; py "tt+"].

(** [if key in keyword: result.field = keyword[key]] *)
Definition override (keyword : gmap str str) (key : string)
    (set : option str -> Translation -> Translation) (t : Translation)
  : Translation :=
  match keyword !! py key with
  | Some v => set (Some v) t
  | None => t
  end.

Definition decode_term (arguments : list str) : outcome Translation :=
  type ← item arguments 0;
  if negb (bool_decide (type ∈ accepted_types)) then Raise UnrecognizedTemplate
  else
    '(positional, keyword) ← generate_arguments (Py.slice (Some 1) None arguments);
    if (length positional <? 2)%nat then Raise MissingRequiredArgument
    else
      p0 ← item positional 0;
      p1 ← item positional 1;
      let result := new_Translation p0 p1 in
      (* if "[[" and "]]" in arguments[1]: *)
      a1 ← item arguments 1;
      let result :=
        if Py.truthy (py "[[") && Py.contains (py "]]") a1 then
          set_translation
            (Py.replace (py "]]") [] (Py.replace (py "[[") [] (translation result)))
            (set_is_equivalent_term false result)
        else result in
      result ←
        (if (3 <=? length positional)%nat then
           p2 ← item positional 2; Ok (set_gender (Some p2) result)
         else Ok result);
      let result := override keyword "sc" set_script_code result in
      let result := override keyword "tr" set_transliteration result in
      let result := override keyword "alt" set_alternate_form result in
      let result := override keyword "lit" set_literal_translation result in
      let result := override keyword "g" set_gender result in
      Ok result.

(** ** The block tokenizer: [re.finditer(r"{{.*?}}", translation)] *)

Module Re.

(** The rest of a match of [{{.*?}}] once the opening braces are read:
    the shortest run of characters other than the newline that ends
    in the closing braces, closing braces included. *)
Fixpoint lazy_body (s : str) : option str :=
  if Py.startswith (py "}}") s then Some (py "}}")
  else match s with
       | [] => None
       | c :: s' => if (c =? 10)%N then None else cons c <$> lazy_body s'
       end.

(** The match of the pattern that starts at the head of [s], if any. *)
Definition match_at (s : str) : option str :=
  if Py.startswith (py "{{") s then app (py "{{") <$> lazy_body (drop 2 s)
  else None.

(** All matches, leftmost first, without overlap; [skip] counts the
    characters of the last match that are still to be passed over. *)
Fixpoint finditer_from (skip : nat) (s : str) : list str :=
  match s with
  | [] => []
  | _ :: s' =>
      match skip with
      | S k => finditer_from k s'
      | O => match match_at s with
             | Some m => m :: finditer_from (length m - 1) s'
             | None => finditer_from 0 s'
             end
      end
  end.

Definition finditer (s : str) : list str := finditer_from 0 s.

End Re.

(** [map(lambda x: x.group(0)[2:-2].split("|"), re.finditer(...))] *)
Definition codeblocks (translation : str) : list (list str) :=
  (fun m => Py.split 124 (Py.slice (Some 2) (Some (-2)) m)) <$> Re.finditer translation.

(** [group.translations.append(new_entry)]; the open group may be [None]. *)
Definition append_entry (new_entry : Translation) (group : option TranslationGroup)
  : outcome (option TranslationGroup) :=
  match group with
  | Some g => Ok (Some (mkTranslationGroup (meaning g) (translations g ++ [new_entry])))
  | None => Raise AttributeError
  end.

(** The body of the [for codeblock in ...] loop, on the pair of the
    current qualifier and the open group. *)
Definition codeblock_step (acc : option str * option TranslationGroup)
    (codeblock : list str) : outcome (option str * option TranslationGroup) :=
  let '(qualifier, group) := acc in
  c0 ← item codeblock 0;
  if bool_decide (c0 = py "qualifier") && (1 <? length codeblock)%nat then
    Ok (Some (Py.join (py "|") (Py.slice (Some 1) None codeblock)), group)
  else
    match decode_term codeblock with
    | Ok new_entry =>
        group' ← append_entry (set_qualifier qualifier new_entry) group;
        Ok (qualifier, group')
    | Raise (TypeError _) => Ok (qualifier, group)
    | Raise e => Raise e
    end.

(** A Python [for] loop whose body may raise. *)
Fixpoint for_each {A S : Type} (body : S -> A -> outcome S) (s : S) (l : list A)
  : outcome S :=
  match l with
  | [] => Ok s
  | x :: l' => s' ← body s x; for_each body s' l'
  end.

(** The body of [for translation in line.split(",")]: the qualifier
    starts as [None] for every segment. *)
Definition segment_step (group : option TranslationGroup) (translation : str)
  : outcome (option TranslationGroup) :=
  acc ← for_each codeblock_step (None, group) (codeblocks translation);
  Ok acc.2.

Definition tokenize_line (group : option TranslationGroup) (line : str)
  : outcome (option TranslationGroup) :=
  for_each segment_step group (Py.split 44 line).

(** ** The page/block loop *)

(** [translations = defaultdict(list)]: page titles in insertion order,
    each with its list of appended groups.  The title is [None] until a
    title line is read and an appended group is [None] when no block was
    ever opened. *)
Definition pages : Type := list (option str * list (option TranslationGroup)).

(** [translations[page_title].append(group)] *)
Fixpoint append_group (page_title : option str) (group : option TranslationGroup)
    (d : pages) : pages :=
  match d with
  | [] => [(page_title, [group])]
  | (k, gs) :: d' =>
      if decide (k = page_title) then (k, gs ++ [group]) :: d'
      else (k, gs) :: append_group page_title group d'
  end.

(** The variables of the main loop.  The groups appended to the
    dictionary are kept by value: the loop only mutates [group] while
    [recording] is true, which is between a block-open line that binds
    [group] to a fresh object and the next block-close line, so an
    object that is in the dictionary is never mutated again. *)
Record state : Type := mkState {
  page_title : option str;
  recording : bool;
  group : option TranslationGroup;
  all_translations : pages
}.

Definition initial : state := mkState None false None [].

(** [line.strip()[7:-8]]: the text between the title tags. *)
Definition raw_title (line : str) : str :=
  Py.slice (Some 7) (Some (-8)) (Py.strip line).

(** A [/translations] sub-page is filed under its parent page. *)
Definition merge_subpage (page_title : str) : str :=
  if Py.endswith (py "/translations") page_title
  then Py.slice None (Some (-13)) page_title
  else page_title.

(** The body of [for line in in_file]. *)
Definition step (st : state) (line : str) : outcome state :=
  if Py.contains (py "<title>") line then
    Ok (mkState (Some (merge_subpage (raw_title line))) (recording st) (group st)
          (all_translations st))
  else if Py.contains (py "{{trans-top|") line then
    let meaning := Py.slice (Some 12) (Some (-2)) (Py.strip line) in
    Ok (mkState (page_title st) true (Some (mkTranslationGroup meaning []))
          (all_translations st))
  else if Py.contains (py "{{trans-bottom}}") line then
    Ok (mkState (page_title st) false (group st)
          (append_group (page_title st) (group st) (all_translations st)))
  else if Py.contains (py "{{trans-mid}}") line then Ok st
  else if recording st then
    group' ← tokenize_line (group st) line;
    Ok (mkState (page_title st) (recording st) group' (all_translations st))
  else Ok st.

Definition run (st : state) (lines : list str) : outcome state :=
  for_each step st lines.

(** ** The output loop *)

(** One row of the [Translations] table, columns in the order of the
    [INSERT]. *)
Record Row : Type := mkRow {
  col_word : option str;
  col_meaning : str;
  col_language : str;
  col_translation : str;
  col_isEquivalent : bool;
  col_gender : option str;
  col_scriptCode : option str;
  col_transliteration : option str;
  col_alternate : option str;
  col_literal : option str;
  col_qualifier : option str
}.

Definition parameters (word : option str) (group : TranslationGroup)
    (t : Translation) : Row :=
  mkRow word (meaning group) (language_code t) (translation t)
    (is_equivalent_term t) (gender t) (script_code t) (transliteration t)
    (alternate_form t) (literal_translation t) (qualifier t).

(** The rows of one appended group; reading [group.translations] of
    [None] raises. *)
Definition group_rows (word : option str) (rows : list Row)
    (group : option TranslationGroup) : outcome (list Row) :=
  match group with
  | Some g => Ok (rows ++ (parameters word g <$> translations g))
  | None => Raise AttributeError
  end.

Definition page_rows (rows : list Row)
    (item : option str * list (option TranslationGroup)) : outcome (list Row) :=
  for_each (group_rows item.1) rows item.2.

(** The rows inserted by the output loop, in order; they are committed
    only if the loop completes. *)
Definition output (d : pages) : outcome (list Row) := for_each page_rows [] d.

(** The whole program on the lines of the input file. *)
Definition extract (lines : list str) : outcome (list Row) :=
  st ← run initial lines;
  output (all_translations st).

(** ** Vocabulary of the statements *)

(** A token is a keyword argument when it contains the character [=]
    (code point 61). *)
Definition is_keyword (argument : str) : Prop := 61%N ∈ argument.

(** [key] and [value] are the two sides of the first [=] of [argument]. *)
Definition split_at_first_eq (argument key value : str) : Prop :=
  argument = key ++ py "=" ++ value /\ 61%N ∉ key.

(** Some positional token comes after some keyword token. *)
Definition misordered (arguments : list str) : Prop :=
  exists (i j : nat) (a b : str),
    (i < j)%nat /\ arguments !! i = Some a /\ arguments !! j = Some b /\
    is_keyword a /\ ~ is_keyword b.

(** [d[k] = v] for a pair [(k, v)]. *)
Definition insert_pair (d : gmap str str) (kv : str * str) : gmap str str :=
  <[ kv.1 := kv.2 ]> d.

(** The pair that [generate_arguments] stores for a keyword token. *)
Definition key_value (argument : str) : str * str :=
  match Py.find (py "=") argument with
  | Some i => (take i argument, drop (S i) argument)
  | None => (argument, [])
  end.

(** No positional token after a keyword token, [seen] telling whether a
    keyword token came before the list. *)
Fixpoint ordered (seen : bool) (arguments : list str) : bool :=
  match arguments with
  | [] => true
  | a :: rest =>
      if bool_decide (is_keyword a) then ordered true rest
      else negb seen && ordered seen rest
  end.

(** [text] with every [[[] and then every []]] removed. *)
Definition strip_links (text : str) : str :=
  Py.replace (py "]]") [] (Py.replace (py "[[") [] text).

(** The entry [decode_term] builds from the first token after the type,
    the positional arguments and the keyword dictionary. *)
Definition decoded (a1 p0 p1 : str) (more : list str) (keyword : gmap str str)
  : Translation :=
  let linked := Py.contains (py "]]") a1 in
  mkTranslation p0 (if linked then strip_links p1 else p1) (negb linked)
    (match keyword !! py "g" with Some v => Some v | None => head more end)
    (keyword !! py "sc") (keyword !! py "tr") (keyword !! py "alt")
    (keyword !! py "lit") None.

(** A template call that sets the qualifier instead of being decoded. *)
Definition sets_qualifier (codeblock : list str) : Prop :=
  exists rest, rest <> [] /\ codeblock = py "qualifier" :: rest.

(** The open group with [new] entries appended. *)
Definition extended (group : TranslationGroup) (new : list Translation)
  : TranslationGroup :=
  mkTranslationGroup (meaning group) (translations group ++ new).

(** Which branch of the main loop a line takes. *)
Definition is_title (line : str) : bool := Py.contains (py "<title>") line.
Definition opens (line : str) : bool :=
  negb (is_title line) && Py.contains (py "{{trans-top|") line.
Definition closes (line : str) : bool :=
  negb (is_title line) && negb (Py.contains (py "{{trans-top|") line)
  && Py.contains (py "{{trans-bottom}}") line.

(** While recording there is an open group. *)
Definition open_ok (st : state) : Prop :=
  recording st = true -> is_Some (group st).

(** An entry as the tokenizer appends it: a decoded template call with
    the current qualifier attached. *)
Definition from_call (t : Translation) : Prop :=
  exists codeblock e q, decode_term codeblock = Ok e /\ t = set_qualifier q e.

Definition group_from_calls (group : option TranslationGroup) : Prop :=
  forall g, group = Some g -> Forall from_call (translations g).

Definition pages_from_calls (d : pages) : Prop :=
  Forall (fun item => Forall group_from_calls item.2) d.

(** The invariant of the main loop. *)
Definition sound (st : state) : Prop :=
  open_ok st /\ group_from_calls (group st) /\ pages_from_calls (all_translations st).

(** The number of groups appended to the dictionary so far. *)
Definition group_count (d : pages) : nat :=
  sum_list ((fun item => length item.2) <$> d).

(** A line as the file iterator yields it: the text and its newline. *)
Definition ln (s : string) : str := py s ++ [10%N].

(** [translations[k]] as a plain lookup: the groups filed under a title,
    none when the title is not a key. *)
Fixpoint page_groups (k : option str) (d : pages) : list (option TranslationGroup) :=
  match d with
  | [] => []
  | (k', gs) :: d' => if decide (k' = k) then gs else page_groups k d'
  end.

(** The rows of the groups of a dictionary, page by page, group by
    group, entry by entry. *)
Definition group_all_rows (word : option str) (group : option TranslationGroup)
  : list Row :=
  match group with
  | Some g => parameters word g <$> translations g
  | None => []
  end.

Definition all_rows (d : pages) : list Row :=
  d ≫= fun item => item.2 ≫= group_all_rows item.1.

(** Some page of the dictionary lists [None] among its groups. *)
Definition has_none (d : pages) : Prop := Exists (fun item => None ∈ item.2) d.

(** A block-close line comes before the first block-open line. *)
Definition early_close (lines : list str) : Prop :=
  exists before line after,
    lines = before ++ line :: after /\ closes line = true /\
    Forall (fun l => opens l = false) before.

(** A text free of the characters the tokenizer and the splitter react
    to: newline, comma, [=], braces and the vertical bar. *)
Definition plain (s : str) : Prop :=
  Forall (fun c => c ∉ [10; 44; 61; 123; 124; 125]%N) s.

(** * Properties *)

(** ** Facts about the string primitives *)

Section Primitives.

Implicit Types (s p k v : str) (c : N).

Lemma startswith_app p s : Py.startswith p (p ++ s) = true.
Proof.
  induction p as [|a p IH]; simpl; [done|].
  by rewrite N.eqb_refl, IH.
Qed.

Lemma startswith_inv p s : Py.startswith p s = true -> exists y, s = p ++ y.
Proof.
  revert s. induction p as [|a p IH]; intros s H; simpl in *.
  - by exists s.
  - destruct s as [|b s]; [done|].
    apply andb_true_iff in H as [Hab Hps].
    apply N.eqb_eq in Hab as ->.
    destruct (IH _ Hps) as [y ->]. by exists y.
Qed.

Lemma endswith_app p s : Py.endswith p (s ++ p) = true.
Proof. unfold Py.endswith. rewrite reverse_app. apply startswith_app. Qed.

Lemma endswith_inv p s : Py.endswith p s = true -> exists x, s = x ++ p.
Proof.
  unfold Py.endswith. intros H.
  destruct (startswith_inv _ _ H) as [y Hy].
  exists (reverse y).
  apply (inj reverse). by rewrite reverse_app, reverse_involutive.
Qed.

Lemma find_single_nil c : Py.find [c] [] = None.
Proof. done. Qed.

Lemma find_single_cons c a s :
  Py.find [c] (a :: s) = if (c =? a)%N then Some 0%nat else S <$> Py.find [c] s.
Proof.
  simpl. destruct (c =? a)%N; simpl; [done|]. by destruct s.
Qed.

Lemma find_single_Some c s i :
  Py.find [c] s = Some i ->
  s = take i s ++ c :: drop (S i) s /\ c ∉ take i s.
Proof.
  revert i. induction s as [|a s IH]; intros i H.
  - by rewrite find_single_nil in H.
  - rewrite find_single_cons in H.
    destruct (c =? a)%N eqn:E.
    + apply N.eqb_eq in E as ->. injection H as <-. simpl. split; [done|].
      apply not_elem_of_nil.
    + apply N.eqb_neq in E.
      destruct (Py.find [c] s) as [j|] eqn:F; [|done].
      injection H as <-. destruct (IH j eq_refl) as [Hs Hn].
      simpl. split; [by rewrite <- Hs|].
      rewrite not_elem_of_cons. done.
Qed.

Lemma find_single_None c s : Py.find [c] s = None <-> c ∉ s.
Proof.
  induction s as [|a s IH].
  - split; [intros _; apply not_elem_of_nil | done].
  - rewrite find_single_cons, not_elem_of_cons.
    destruct (c =? a)%N eqn:E.
    + apply N.eqb_eq in E. split; [done | intros [? _]; done].
    + apply N.eqb_neq in E. rewrite <- IH.
      destruct (Py.find [c] s); simpl; split; try done; intros [_ ?]; done.
Qed.

Lemma find_single_first c k v :
  c ∉ k -> Py.find [c] (k ++ c :: v) = Some (length k).
Proof.
  induction k as [|a k IH]; intros Hn.
  - simpl app. rewrite find_single_cons. by rewrite N.eqb_refl.
  - apply not_elem_of_cons in Hn as [Hca Hk].
    simpl app. rewrite find_single_cons.
    apply N.eqb_neq in Hca as ->. by rewrite (IH Hk).
Qed.

Lemma contains_single c s : Py.contains [c] s = true <-> c ∈ s.
Proof.
  unfold Py.contains. destruct (Py.find [c] s) as [i|] eqn:F.
  - split; [intros _ | done].
    destruct (find_single_Some _ _ _ F) as [-> _].
    apply elem_of_app. right. apply elem_of_cons. by left.
  - apply find_single_None in F. split; [done | intros ?; done].
Qed.

Lemma contains_single_false c s : Py.contains [c] s = false <-> c ∉ s.
Proof.
  rewrite <- contains_single. destruct (Py.contains [c] s); split; done.
Qed.

Lemma slice_upto {A} (i : nat) (l : list A) :
  Py.slice None (Some (Z.of_nat i)) l = take i l.
Proof.
  unfold Py.slice, Py.bound.
  destruct (Z.ltb_spec (Z.of_nat i) 0); [lia|].
  rewrite drop_0, Z.sub_0_r.
  destruct (decide (i <= length l)%nat).
  - rewrite Z.min_l by lia. by rewrite Nat2Z.id.
  - rewrite Z.min_r by lia. rewrite Nat2Z.id.
    rewrite !take_ge; [done | lia | lia].
Qed.

Lemma slice_from {A} (i : nat) (l : list A) :
  Py.slice (Some (Z.of_nat i)) None l = drop i l.
Proof.
  unfold Py.slice, Py.bound.
  destruct (Z.ltb_spec (Z.of_nat i) 0); [lia|].
  destruct (decide (i <= length l)%nat).
  - rewrite Z.min_l by lia. rewrite Nat2Z.id.
    apply take_ge. rewrite length_drop. lia.
  - rewrite Z.min_r by lia. rewrite Z.sub_diag, Nat2Z.id. simpl.
    rewrite (drop_ge l i); [done | lia].
Qed.

Lemma slice_tail {A} (x : A) (l : list A) : Py.slice (Some 1) None (x :: l) = l.
Proof. apply (slice_from 1 (x :: l)). Qed.

Lemma slice_drop_suffix {A} (x p : list A) :
  (0 < length p)%nat ->
  Py.slice None (Some (- Z.of_nat (length p))) (x ++ p) = x.
Proof.
  intros Hp. unfold Py.slice, Py.bound. rewrite length_app.
  destruct (Z.ltb_spec (- Z.of_nat (length p)) 0); [|lia].
  rewrite Z.max_r by lia. rewrite drop_0.
  replace (Z.to_nat _) with (length x) by lia.
  by rewrite take_app_length.
Qed.

End Primitives.

(** ** The argument splitter *)

Section Splitter.

Implicit Types (acc : splitter) (a : str) (arguments : list str).

Lemma key_value_split a :
  is_keyword a -> split_at_first_eq a (key_value a).1 (key_value a).2.
Proof.
  unfold is_keyword, key_value, split_at_first_eq. intros Ha.
  change (py "=") with [61%N].
  destruct (Py.find [61%N] a) as [i|] eqn:F.
  - apply find_single_Some in F as [Hs Hn]. simpl. done.
  - apply find_single_None in F. done.
Qed.

Lemma key_value_first (k v : str) : 61%N ∉ k -> key_value (k ++ py "=" ++ v) = (k, v).
Proof.
  intros Hk. unfold key_value. change (py "=") with [61%N].
  simpl app. rewrite (find_single_first _ _ _ Hk).
  rewrite take_app_length.
  replace (S (length k)) with (length k + 1)%nat by lia.
  rewrite <- drop_drop, drop_app_length. done.
Qed.

Lemma split_at_first_eq_unique a k v :
  split_at_first_eq a k v -> key_value a = (k, v).
Proof. intros [-> Hk]. by apply key_value_first. Qed.

Lemma generate_arguments_step_keyword acc a :
  is_keyword a ->
  generate_arguments_step acc a =
    Ok (mkSplitter (positional_arguments acc)
          (insert_pair (keyword_arguments acc) (key_value a)) true).
Proof.
  unfold is_keyword, generate_arguments_step, key_value, Py.contains, Py.index.
  change (py "=") with [61%N]. intros Ha.
  destruct (Py.find [61%N] a) as [i|] eqn:F.
  - simpl. rewrite slice_upto.
    replace (Z.of_nat i + 1) with (Z.of_nat (S i)) by lia.
    by rewrite slice_from.
  - apply find_single_None in F. done.
Qed.

Lemma generate_arguments_step_positional acc a :
  ~ is_keyword a ->
  generate_arguments_step acc a =
    if keywords acc then Raise MalformedArguments
    else Ok (mkSplitter (positional_arguments acc ++ [a])
               (keyword_arguments acc) false).
Proof.
  unfold is_keyword, generate_arguments_step. change (py "=") with [61%N].
  intros Ha. apply contains_single_false in Ha as ->.
  by destruct acc as [p d []].
Qed.

Lemma generate_arguments_loop_spec arguments : forall acc,
  if ordered (keywords acc) arguments then
    exists flag,
      generate_arguments_loop acc arguments =
        Ok (mkSplitter
              (positional_arguments acc ++ filter (fun a => ~ is_keyword a) arguments)
              (foldl insert_pair (keyword_arguments acc)
                 (key_value <$> filter is_keyword arguments))
              flag)
  else generate_arguments_loop acc arguments = Raise MalformedArguments.
Proof.
  induction arguments as [|a rest IH]; intros acc.
  - simpl. exists (keywords acc). rewrite app_nil_r. by destruct acc.
  - cbn [ordered generate_arguments_loop].
    destruct (decide (is_keyword a)) as [Ha|Ha].
    + rewrite (bool_decide_eq_true_2 _ Ha), (generate_arguments_step_keyword _ _ Ha).
      specialize (IH (mkSplitter (positional_arguments acc)
                        (insert_pair (keyword_arguments acc) (key_value a)) true)).
      cbn [keywords positional_arguments keyword_arguments] in IH.
      rewrite !filter_cons. repeat case_decide; tauto.
    + rewrite (bool_decide_eq_false_2 _ Ha), (generate_arguments_step_positional _ _ Ha).
      destruct (keywords acc) eqn:K; [done|].
      specialize (IH (mkSplitter (positional_arguments acc ++ [a])
                        (keyword_arguments acc) false)).
      cbn [keywords positional_arguments keyword_arguments] in IH.
      rewrite <- app_assoc in IH.
      rewrite !filter_cons. repeat case_decide; tauto.
Qed.

Lemma ordered_seen arguments :
  ordered true arguments = true <-> Forall is_keyword arguments.
Proof.
  induction arguments as [|a rest IH]; simpl.
  - split; [constructor | done].
  - rewrite Forall_cons. destruct (decide (is_keyword a)) as [Ha|Ha].
    + rewrite (bool_decide_eq_true_2 _ Ha). tauto.
    + rewrite (bool_decide_eq_false_2 _ Ha). simpl. split; [done | tauto].
Qed.

Lemma ordered_misordered arguments :
  ordered false arguments = false <-> misordered arguments.
Proof.
  induction arguments as [|a rest IH]; simpl.
  - split; [done|]. intros (i & j & x & y & _ & H & _). done.
  - destruct (decide (is_keyword a)) as [Ha|Ha].
    + rewrite (bool_decide_eq_true_2 _ Ha).
      rewrite <- not_true_iff_false, ordered_seen. split.
      * intros Hn. apply not_Forall_Exists in Hn; [|apply _].
        apply Exists_exists in Hn as (b & Hb & Hnb).
        apply list_elem_of_lookup in Hb as [j Hj].
        exists 0%nat, (S j), a, b. repeat split; [lia|done..].
      * intros (i & j & x & y & Hij & _ & Hj & _ & Hy) Hall.
        destruct j as [|j]; [lia|].
        rewrite Forall_forall in Hall. apply Hy, Hall.
        by apply (list_elem_of_lookup_2 _ j).
    + rewrite (bool_decide_eq_false_2 _ Ha). simpl. rewrite IH. split.
      * intros (i & j & x & y & Hij & Hi & Hj & Hx & Hy).
        exists (S i), (S j), x, y. repeat split; [lia|done..].
      * intros (i & j & x & y & Hij & Hi & Hj & Hx & Hy).
        destruct i as [|i]; [simpl in Hi; by injection Hi as -> |].
        destruct j as [|j]; [lia|].
        exists i, j, x, y. repeat split; [lia|done..].
Qed.

Lemma generate_arguments_ordered arguments :
  ordered false arguments = true ->
  generate_arguments arguments =
    Ok (filter (fun a => ~ is_keyword a) arguments,
        foldl insert_pair ∅ (key_value <$> filter is_keyword arguments)).
Proof.
  intros Ho. unfold generate_arguments.
  pose proof (generate_arguments_loop_spec arguments (mkSplitter [] ∅ false)) as H.
  cbn [keywords positional_arguments keyword_arguments] in H.
  rewrite Ho in H. destruct H as [flag ->]. done.
Qed.

Lemma generate_arguments_misordered arguments :
  ordered false arguments = false ->
  generate_arguments arguments = Raise MalformedArguments.
Proof.
  intros Ho. unfold generate_arguments.
  pose proof (generate_arguments_loop_spec arguments (mkSplitter [] ∅ false)) as H.
  cbn [keywords] in H. rewrite Ho in H. by rewrite H.
Qed.

(** The splitter raises nothing but [MalformedArguments]. *)
Lemma generate_arguments_cases arguments :
  generate_arguments arguments = Raise MalformedArguments \/
  generate_arguments arguments =
    Ok (filter (fun a => ~ is_keyword a) arguments,
        foldl insert_pair ∅ (key_value <$> filter is_keyword arguments)).
Proof.
  destruct (ordered false arguments) eqn:Ho.
  - right. by apply generate_arguments_ordered.
  - left. by apply generate_arguments_misordered.
Qed.

End Splitter.

(** C4. The argument splitter fails with [MalformedArguments] exactly
    when some token without [=] comes after a token with [=].  Otherwise
    it returns the tokens without [=], in order, as positional arguments,
    and the dictionary obtained by storing, in order, for every token
    with [=] the pair of the text before its first [=] and the text
    after it, both verbatim. *)
Theorem generate_arguments_spec (arguments : list str) :
  (generate_arguments arguments = Raise MalformedArguments <-> misordered arguments)
  /\ (~ misordered arguments ->
      exists pairs : list (str * str),
        Forall2 (fun a kv => split_at_first_eq a kv.1 kv.2)
          (filter is_keyword arguments) pairs
        /\ generate_arguments arguments =
             Ok (filter (fun a => ~ is_keyword a) arguments,
                 foldl insert_pair ∅ pairs)).
Proof.
  split.
  - rewrite <- ordered_misordered. split.
    + intros H. destruct (ordered false arguments) eqn:Ho; [|done].
      by rewrite (generate_arguments_ordered _ Ho) in H.
    + apply generate_arguments_misordered.
  - intros Hn. exists (key_value <$> filter is_keyword arguments). split.
    + apply Forall2_fmap_r, Forall_Forall2_diag, Forall_forall.
      intros a Ha. apply list_elem_of_filter in Ha as [Ha _].
      by apply key_value_split.
    + apply generate_arguments_ordered.
      destruct (ordered false arguments) eqn:Ho; [done|].
      by apply ordered_misordered in Ho.
Qed.

Lemma generate_arguments_spec_witness :
  exists pairs : list (str * str),
    Forall2 (fun a kv => split_at_first_eq a kv.1 kv.2)
      (filter is_keyword [py "de"; py "Hund"; py "tr=a=b"; py "g=m"]) pairs
    /\ generate_arguments [py "de"; py "Hund"; py "tr=a=b"; py "g=m"] =
         Ok (filter (fun a => ~ is_keyword a) [py "de"; py "Hund"; py "tr=a=b"; py "g=m"],
             foldl insert_pair ∅ pairs).
Proof.
  apply (proj2 (generate_arguments_spec [py "de"; py "Hund"; py "tr=a=b"; py "g=m"])).
  intros H. apply ordered_misordered in H. vm_compute in H. discriminate H.
Defined.


Lemma foldl_insert_pair_absent (d : gmap str str) (pairs : list (str * str)) (k : str) :
  k ∉ pairs.*1 -> foldl insert_pair d pairs !! k = d !! k.
Proof.
  revert d. induction pairs as [|[k' v'] pairs IH]; intros d Hk; [done|].
  rewrite fmap_cons, not_elem_of_cons in Hk. destruct Hk as [Hne Hk].
  simpl. rewrite (IH _ Hk). unfold insert_pair. simpl in *.
  by rewrite lookup_insert_ne.
Qed.

(** C10. When a key occurs in several keyword tokens of a well-ordered
    token list, the returned dictionary holds for it the value of its
    last occurrence. *)
Theorem generate_arguments_last_wins
    (before after positional : list str) (key value : str) (keyword : gmap str str) :
  61%N ∉ key ->
  (forall value', key ++ py "=" ++ value' ∉ after) ->
  generate_arguments (before ++ (key ++ py "=" ++ value) :: after)
    = Ok (positional, keyword) ->
  keyword !! key = Some value.
Proof.
  intros Hkey Hlast Hgen.
  pose proof (key_value_first key value Hkey) as Hkv.
  assert (is_keyword (key ++ py "=" ++ value)) as Hkw.
  { unfold is_keyword. rewrite elem_of_app. right. apply elem_of_cons. by left. }
  revert Hgen Hkv Hkw. generalize (key ++ py "=" ++ value) as tok.
  intros tok Hgen Hkv Hkw.
  destruct (generate_arguments_cases (before ++ tok :: after))
    as [H|H]; rewrite H in Hgen; [done|].
  injection Hgen as _ <-.
  rewrite filter_app, filter_cons, (decide_True _ _ Hkw).
  rewrite fmap_app, fmap_cons, Hkv, foldl_app. cbn [foldl].
  rewrite foldl_insert_pair_absent.
  - unfold insert_pair. simpl. apply lookup_insert_eq.
  - intros Hin. apply list_elem_of_fmap in Hin as ([k v] & Hk & Hin).
    apply list_elem_of_fmap in Hin as (a & Hkva & Ha).
    apply list_elem_of_filter in Ha as [Ha Hin].
    simpl in Hk. subst k.
    destruct (key_value_split a Ha) as [Hsplit _].
    rewrite <- Hkva in Hsplit. cbn [fst snd] in Hsplit.
    apply (Hlast v). by rewrite <- Hsplit.
Qed.

Lemma generate_arguments_last_wins_witness :
  generate_arguments [py "a"; py "g=m"; py "tr=x"; py "g=f"; py "sc=Latn"]
    = Ok ([py "a"], foldl insert_pair ∅
            [(py "g", py "m"); (py "tr", py "x"); (py "g", py "f"); (py "sc", py "Latn")])
  /\ foldl insert_pair (∅ : gmap str str)
       [(py "g", py "m"); (py "tr", py "x"); (py "g", py "f"); (py "sc", py "Latn")]
       !! py "g" = Some (py "f").
Proof.
  assert (generate_arguments [py "a"; py "g=m"; py "tr=x"; py "g=f"; py "sc=Latn"]
    = Ok ([py "a"], foldl insert_pair ∅
            [(py "g", py "m"); (py "tr", py "x"); (py "g", py "f"); (py "sc", py "Latn")]))
    as Hrun by (vm_compute; reflexivity).
  split; [exact Hrun|].
  apply (generate_arguments_last_wins [py "a"; py "g=m"; py "tr=x"] [py "sc=Latn"]
           [py "a"] (py "g") (py "f")).
  - vm_compute. intros H. repeat (apply elem_of_cons in H as [H|H]; [discriminate|]).
    by apply not_elem_of_nil in H.
  - intros value' H. apply elem_of_cons in H as [H|H]; [discriminate|].
    by apply not_elem_of_nil in H.
  - exact Hrun.
Defined.

(** ** The term decoder *)

Section Decoder.

Implicit Types (type : str) (rest more positional : list str)
  (keyword : gmap str str).

Lemma decode_term_nil : decode_term [] = Raise IndexError.
Proof. done. Qed.

Lemma decode_term_unrecognized type rest :
  type ∉ accepted_types -> decode_term (type :: rest) = Raise UnrecognizedTemplate.
Proof.
  intros H. unfold decode_term. cbn [item lookup list_lookup mbind outcome_bind].
  by rewrite (bool_decide_eq_false_2 _ H).
Qed.

Lemma decode_term_accepted type rest :
  type ∈ accepted_types ->
  decode_term (type :: rest) =
    match generate_arguments rest with
    | Raise e => Raise e
    | Ok (p0 :: p1 :: more, keyword) =>
        match rest with
        | a1 :: _ => Ok (decoded a1 p0 p1 more keyword)
        | [] => Raise IndexError
        end
    | Ok (_, _) => Raise MissingRequiredArgument
    end.
Proof.
  intros H. unfold decode_term. cbn [item lookup list_lookup mbind outcome_bind].
  rewrite (bool_decide_eq_true_2 _ H), slice_tail. cbn [negb].
  destruct (generate_arguments rest) as [[positional keyword]|e]; [|done].
  cbn [mbind outcome_bind].
  destruct positional as [|p0 [|p1 more]]; [done..|].
  destruct rest as [|a1 rest]; [done|].
  cbn [length Nat.ltb Nat.leb item lookup list_lookup mbind outcome_bind].
  change (Py.truthy (py "[[")) with true. cbn [andb].
  unfold decoded, override, strip_links.
  destruct (Py.contains (py "]]") a1), more as [|p2 more];
    cbn [length Nat.leb item lookup list_lookup mbind outcome_bind head];
    destruct (keyword !! py "sc"), (keyword !! py "tr"), (keyword !! py "alt"),
      (keyword !! py "lit"), (keyword !! py "g"); reflexivity.
Qed.

(** The first token after the type is the first positional argument
    whenever there is a positional argument at all. *)
Lemma generate_arguments_head (a1 p0 : str) rest more keyword :
  generate_arguments (a1 :: rest) = Ok (p0 :: more, keyword) -> a1 = p0.
Proof.
  intros Hgen.
  destruct (generate_arguments_cases (a1 :: rest)) as [H|H];
    rewrite H in Hgen; [done|].
  injection Hgen as Hpos _.
  destruct (decide (is_keyword a1)) as [Ha|Ha].
  - destruct (ordered false (a1 :: rest)) eqn:Ho.
    + simpl in Ho. rewrite (bool_decide_eq_true_2 _ Ha) in Ho.
      apply ordered_seen in Ho.
      rewrite filter_cons, decide_False in Hpos by tauto.
      assert (p0 ∈ filter (λ a, ¬ is_keyword a) rest) as Hin
        by (rewrite Hpos; apply elem_of_cons; by left).
      apply list_elem_of_filter in Hin as [Hn Hin].
      rewrite Forall_forall in Ho. destruct (Hn (Ho _ Hin)).
    + apply generate_arguments_misordered in Ho. congruence.
  - rewrite filter_cons, decide_True in Hpos by done. congruence.
Qed.

Lemma decode_term_Ok_inv (arguments : list str) (e : Translation) :
  decode_term arguments = Ok e ->
  exists type rest p1 more keyword,
    arguments = type :: language_code e :: rest /\
    type ∈ accepted_types /\
    generate_arguments (language_code e :: rest)
      = Ok (language_code e :: p1 :: more, keyword) /\
    e = decoded (language_code e) (language_code e) p1 more keyword.
Proof.
  intros H. destruct arguments as [|type rest]; [done|].
  destruct (decide (type ∈ accepted_types)) as [Ht|Ht];
    [|by rewrite decode_term_unrecognized in H].
  rewrite (decode_term_accepted _ _ Ht) in H.
  destruct (generate_arguments rest) as [[positional keyword]|err] eqn:Hgen; [|done].
  destruct positional as [|p0 [|p1 more]]; [done..|].
  destruct rest as [|a1 rest]; [done|].
  injection H as <-.
  pose proof (generate_arguments_head _ _ _ _ _ Hgen) as ->.
  exists type, rest, p1, more, keyword. done.
Qed.

(** The decoder raises nothing but its three [TypeError]s on a
    non-empty token group. *)
Lemma decode_term_raises type rest e :
  decode_term (type :: rest) = Raise e ->
  e = UnrecognizedTemplate \/ e = MalformedArguments \/ e = MissingRequiredArgument.
Proof.
  intros H.
  destruct (decide (type ∈ accepted_types)) as [Ht|Ht];
    [|rewrite decode_term_unrecognized in H by done; left; congruence].
  rewrite (decode_term_accepted _ _ Ht) in H. right.
  destruct (generate_arguments_cases rest) as [Hg|Hg]; rewrite Hg in H;
    [left; congruence|].
  destruct (filter _ rest) as [|p0 [|p1 more]] eqn:Hf; [right; congruence..|].
  destruct rest as [|a1 rest]; [done|done].
Qed.

End Decoder.

(** ** Loops *)

Section ForEach.

Context {A S : Type} (body : S -> A -> outcome S).

Lemma for_each_app (s : S) (l1 l2 : list A) :
  for_each body s (l1 ++ l2) = for_each body s l1 ≫= fun s' => for_each body s' l2.
Proof.
  revert s. induction l1 as [|x l1 IH]; intros s; [done|].
  simpl. destruct (body s x) as [s'|e]; [apply IH | done].
Qed.

(** A property kept by every iteration holds at the end. *)
Lemma for_each_keeps (P : S -> Prop) (l : list A) (s s' : S) :
  (forall s x s', x ∈ l -> P s -> body s x = Ok s' -> P s') ->
  P s -> for_each body s l = Ok s' -> P s'.
Proof.
  revert s. induction l as [|x l IH]; intros s Hstep Hs Hrun.
  - simpl in Hrun. by injection Hrun as <-.
  - simpl in Hrun. destruct (body s x) as [s1|e] eqn:Hx; [|done].
    apply (IH s1); [|by apply (Hstep s x); [apply elem_of_cons; left|..]|done].
    intros s2 y s3 Hy. apply Hstep. apply elem_of_cons. by right.
Qed.

(** If every iteration succeeds and keeps a property, so does the loop. *)
Lemma for_each_total (P : S -> Prop) (l : list A) (s : S) :
  (forall s x, x ∈ l -> P s -> exists s', body s x = Ok s' /\ P s') ->
  P s -> exists s', for_each body s l = Ok s' /\ P s'.
Proof.
  revert s. induction l as [|x l IH]; intros s Hstep Hs.
  - by exists s.
  - destruct (Hstep s x) as (s1 & Hx & Hs1); [apply elem_of_cons; by left|done|].
    simpl. rewrite Hx. apply IH; [|done].
    intros s2 y Hy. apply Hstep. apply elem_of_cons. by right.
Qed.

End ForEach.

(** ** The block tokenizer *)

Section Tokenizer.

Implicit Types (q : option str) (g : TranslationGroup) (group : option TranslationGroup)
  (codeblock : list str).

Lemma split_nonempty (sep : N) (s : str) : Py.split sep s <> [].
Proof.
  destruct s as [|c s]; [done|]. simpl.
  destruct (c =? sep)%N; [done|]. by destruct (Py.split sep s).
Qed.

Lemma codeblocks_nonempty (translation : str) :
  Forall (fun codeblock => codeblock <> []) (codeblocks translation).
Proof.
  unfold codeblocks. apply Forall_fmap, Forall_forall. intros m _.
  apply split_nonempty.
Qed.

Lemma qualifier_not_accepted : py "qualifier" ∉ accepted_types.
Proof.
  intros H. apply (bool_decide_eq_true_2 _) in H. by vm_compute in H.
Qed.

Lemma sets_qualifier_test (c0 : str) (rest : list str) :
  bool_decide (c0 = py "qualifier") && (1 <? length (c0 :: rest))%nat = true
  <-> sets_qualifier (c0 :: rest).
Proof.
  unfold sets_qualifier. rewrite andb_true_iff, bool_decide_eq_true. split.
  - intros [-> Hlen]. exists rest. split; [|done]. by destruct rest.
  - intros (rest' & Hne & H). injection H as -> ->. split; [done|].
    by destruct rest'.
Qed.

Lemma sets_qualifier_cases codeblock :
  sets_qualifier codeblock \/ ~ sets_qualifier codeblock.
Proof.
  destruct codeblock as [|c0 rest].
  - right. by intros (rest & _ & H).
  - rewrite <- sets_qualifier_test. destruct (_ && _); [by left | by right].
Qed.

Lemma codeblock_step_qualifier q group (rest : list str) :
  rest <> [] ->
  codeblock_step (q, group) (py "qualifier" :: rest)
    = Ok (Some (Py.join (py "|") rest), group).
Proof.
  intros Hne. unfold codeblock_step.
  cbn [item lookup list_lookup mbind outcome_bind].
  rewrite (proj2 (sets_qualifier_test _ _)) by (by exists rest).
  by rewrite slice_tail.
Qed.

Lemma codeblock_step_decode q group codeblock :
  codeblock <> [] -> ~ sets_qualifier codeblock ->
  codeblock_step (q, group) codeblock =
    match decode_term codeblock with
    | Ok new_entry =>
        append_entry (set_qualifier q new_entry) group ≫= fun group' => Ok (q, group')
    | Raise (TypeError _) => Ok (q, group)
    | Raise e => Raise e
    end.
Proof.
  intros Hne Hq. destruct codeblock as [|c0 rest]; [done|].
  unfold codeblock_step. cbn [item lookup list_lookup mbind outcome_bind].
  destruct (bool_decide (c0 = py "qualifier") && (1 <? length (c0 :: rest))%nat)
    eqn:E; [|done].
  by apply sets_qualifier_test in E.
Qed.

(** A failed decode leaves the open group as it was. *)
Lemma codeblock_step_skip q group codeblock msg :
  decode_term codeblock = Raise (TypeError msg) ->
  ~ sets_qualifier codeblock ->
  codeblock_step (q, group) codeblock = Ok (q, group).
Proof.
  intros Hd Hq. destruct codeblock as [|c0 rest]; [done|].
  rewrite codeblock_step_decode by done. by rewrite Hd.
Qed.

(** On a non-empty token group and an open group the loop body never
    raises, and it only ever appends to the open group. *)
Lemma codeblock_step_total q g codeblock :
  codeblock <> [] ->
  exists q' new, codeblock_step (q, Some g) codeblock = Ok (q', Some (extended g new))
    /\ Forall (fun t => exists e, decode_term codeblock = Ok e /\ t = set_qualifier q e) new
    /\ (~ sets_qualifier codeblock -> q' = q).
Proof.
  intros Hne. destruct (sets_qualifier_cases codeblock) as [Hq|Hq].
  - destruct Hq as (rest & Hrest & ->).
    exists (Some (Py.join (py "|") rest)), [].
    rewrite codeblock_step_qualifier by done.
    unfold extended. rewrite app_nil_r. destruct g. split; [done|].
    split; [constructor|]. intros []. by exists rest.
  - rewrite codeblock_step_decode by done.
    destruct (decode_term codeblock) as [e|err] eqn:Hd.
    + exists q, [set_qualifier q e]. split; [done|]. split; [|done].
      constructor; [|constructor]. by exists e.
    + destruct codeblock as [|c0 rest]; [done|].
      exists q, []. unfold extended. rewrite app_nil_r. destruct g.
      destruct (decode_term_raises _ _ _ Hd) as [-> | [-> | ->]]; repeat split; done.
Qed.

End Tokenizer.

Section Lines.

Implicit Types (q : option str) (g : TranslationGroup) (st : state) (line : str).

Lemma extended_extended g (new1 new2 : list Translation) :
  extended (extended g new1) new2 = extended g (new1 ++ new2).
Proof. unfold extended. simpl. by rewrite app_assoc. Qed.

Lemma extended_nil g : extended g [] = g.
Proof. unfold extended. rewrite app_nil_r. by destruct g. Qed.

Lemma codeblocks_loop (cbs : list (list str)) : forall q g,
  Forall (fun codeblock => codeblock <> []) cbs ->
  exists q' new,
    for_each codeblock_step (q, Some g) cbs = Ok (q', Some (extended g new))
    /\ Forall from_call new
    /\ (Forall (fun codeblock => ~ sets_qualifier codeblock) cbs ->
        q' = q /\ Forall (fun t => qualifier t = q) new).
Proof.
  induction cbs as [|cb cbs IH]; intros q g Hne.
  - exists q, []. rewrite extended_nil. repeat split; constructor.
  - apply Forall_cons in Hne as [Hcb Hne].
    destruct (codeblock_step_total q g cb Hcb) as (q1 & new1 & Hstep & Hnew1 & Hq1).
    destruct (IH q1 (extended g new1) Hne) as (q2 & new2 & Hrun & Hnew2 & Hq2).
    exists q2, (new1 ++ new2). cbn [for_each]. rewrite Hstep. cbn [mbind outcome_bind].
    rewrite Hrun, extended_extended. split; [done|]. split.
    + apply Forall_app. split; [|done].
      eapply Forall_impl; [exact Hnew1|]. intros t (e & He & ->).
      by exists cb, e, q.
    + intros Hall. apply Forall_cons in Hall as [Hn Hall].
      destruct (Hq2 Hall) as [-> Hq]. rewrite (Hq1 Hn) in *. split; [done|].
      apply Forall_app. split; [|done].
      eapply Forall_impl; [exact Hnew1|]. by intros t (e & He & ->).
Qed.

Lemma segment_step_total g (translation : str) :
  exists new,
    segment_step (Some g) translation = Ok (Some (extended g new))
    /\ Forall from_call new
    /\ (Forall (fun codeblock => ~ sets_qualifier codeblock) (codeblocks translation) ->
        Forall (fun t => qualifier t = None) new).
Proof.
  destruct (codeblocks_loop (codeblocks translation) None g
              (codeblocks_nonempty translation)) as (q' & new & Hrun & Hnew & Hq).
  exists new. unfold segment_step. rewrite Hrun. split; [done|]. split; [done|].
  intros Hall. by destruct (Hq Hall).
Qed.

Lemma tokenize_line_total g line :
  exists new,
    tokenize_line (Some g) line = Ok (Some (extended g new)) /\ Forall from_call new.
Proof.
  unfold tokenize_line. generalize (Py.split 44 line) as segments.
  intros segments. revert g. induction segments as [|seg segments IH]; intros g.
  - exists []. by rewrite extended_nil.
  - destruct (segment_step_total g seg) as (new1 & Hseg & Hnew1 & _).
    destruct (IH (extended g new1)) as (new2 & Hrun & Hnew2).
    exists (new1 ++ new2). cbn [for_each]. rewrite Hseg. cbn [mbind outcome_bind].
    rewrite Hrun, extended_extended. split; [done|]. by apply Forall_app.
Qed.

Lemma append_group_from_calls (k : option str) (group : option TranslationGroup)
    (d : pages) :
  group_from_calls group -> pages_from_calls d ->
  pages_from_calls (append_group k group d).
Proof.
  intros Hg. unfold pages_from_calls.
  induction d as [|[k' gs] d IH]; intros Hd; simpl.
  - repeat constructor. done.
  - apply Forall_cons in Hd as [Hgs Hd]. case_decide.
    + constructor; [|done]. simpl in *. apply Forall_app. split; [done|].
      by constructor.
    + constructor; [done|]. by apply IH.
Qed.

(** Every line is processed without an exception and keeps the
    invariant; only a block-close line touches the dictionary and
    only a title line sets the page title. *)
Lemma step_total st line :
  sound st ->
  exists st', step st line = Ok st' /\ sound st'
    /\ (closes line = false -> all_translations st' = all_translations st)
    /\ (is_title line = false -> page_title st' = page_title st).
Proof.
  intros (Hopen & Hgroup & Hpages). unfold step, closes, is_title.
  destruct (Py.contains (py "<title>") line).
  { eexists. split; [done|]. repeat split; done. }
  destruct (Py.contains (py "{{trans-top|") line).
  { eexists. split; [done|]. repeat split; try done.
    - intros _. by eexists.
    - intros g [= <-]. constructor. }
  destruct (Py.contains (py "{{trans-bottom}}") line).
  { eexists. split; [done|]. repeat split; try done.
    by apply append_group_from_calls. }
  destruct (Py.contains (py "{{trans-mid}}") line).
  { exists st. repeat split; done. }
  destruct (recording st) eqn:Hrec; [|exists st; repeat split; done].
  destruct (Hopen Hrec) as [g Hg]. rewrite Hg.
  destruct (tokenize_line_total g line) as (new & -> & Hnew).
  eexists. split; [done|]. repeat split; try done.
  - intros _. by eexists.
  - intros g' [= <-]. simpl. apply Forall_app. split; [|done].
    by apply Hgroup.
Qed.

Lemma run_total (lines : list str) st :
  sound st -> exists st', run st lines = Ok st' /\ sound st'.
Proof.
  intros Hst. apply for_each_total; [|done].
  intros s line _ Hs. destruct (step_total s line Hs) as (s' & ? & ? & _).
  by exists s'.
Qed.

Lemma sound_initial : sound initial.
Proof.
  repeat split; [done| |constructor]. intros g [=].
Qed.

Lemma run_app st (lines1 lines2 : list str) :
  run st (lines1 ++ lines2) = run st lines1 ≫= fun st' => run st' lines2.
Proof. apply for_each_app. Qed.

(** Lines that are not block-close lines leave the dictionary alone. *)
Lemma run_no_close (lines : list str) : forall st,
  sound st -> Forall (fun line => closes line = false) lines ->
  exists st', run st lines = Ok st' /\ sound st'
    /\ all_translations st' = all_translations st.
Proof.
  induction lines as [|line lines IH]; intros st Hst Hall.
  - by exists st.
  - apply Forall_cons in Hall as [Hline Hall].
    destruct (step_total st line Hst) as (st1 & Hstep & Hst1 & Hd & _).
    destruct (IH st1 Hst1 Hall) as (st2 & Hrun & Hst2 & Hd2).
    exists st2. unfold run in *. cbn [for_each]. rewrite Hstep. cbn [mbind outcome_bind].
    rewrite Hrun, Hd2, (Hd Hline). done.
Qed.

(** Lines that are neither title nor block-close lines leave both the
    page title and the dictionary alone. *)
Lemma run_inside (lines : list str) : forall st,
  sound st ->
  Forall (fun line => is_title line = false /\ closes line = false) lines ->
  exists st', run st lines = Ok st' /\ sound st'
    /\ all_translations st' = all_translations st
    /\ page_title st' = page_title st.
Proof.
  induction lines as [|line lines IH]; intros st Hst Hall.
  - by exists st.
  - apply Forall_cons in Hall as [[Htitle Hline] Hall].
    destruct (step_total st line Hst) as (st1 & Hstep & Hst1 & Hd & Hp).
    destruct (IH st1 Hst1 Hall) as (st2 & Hrun & Hst2 & Hd2 & Hp2).
    exists st2. unfold run in *. cbn [for_each]. rewrite Hstep. cbn [mbind outcome_bind].
    rewrite Hrun, Hd2, Hp2, (Hd Hline), (Hp Htitle). done.
Qed.

(** A block-open line forgets the group that was open. *)
Lemma step_opens st st' line :
  opens line = true ->
  page_title st' = page_title st ->
  all_translations st' = all_translations st ->
  step st' line = step st line.
Proof.
  unfold opens, is_title, step. intros Ho Hp Hd.
  destruct (Py.contains (py "<title>") line); [done|].
  simpl in Ho. rewrite Ho, Hp, Hd. done.
Qed.

End Lines.

(** ** The output loop *)

Lemma output_rows (d : pages) (rows : list Row) (r : Row) :
  output d = Ok rows -> r ∈ rows ->
  exists word gs g t,
    (word, gs) ∈ d /\ Some g ∈ gs /\ t ∈ translations g /\ r = parameters word g t.
Proof.
  unfold output. intros Hout.
  apply (for_each_keeps page_rows
           (fun rows => r ∈ rows -> exists word gs g t,
              (word, gs) ∈ d /\ Some g ∈ gs /\ t ∈ translations g
              /\ r = parameters word g t) d [] rows); [|by intros ?%not_elem_of_nil|done].
  intros rows0 [word gs] rows1 Hitem Hrows0. unfold page_rows. simpl.
  apply (for_each_keeps (group_rows word)
           (fun rows => r ∈ rows -> exists word gs g t,
              (word, gs) ∈ d /\ Some g ∈ gs /\ t ∈ translations g
              /\ r = parameters word g t) gs rows0 rows1); [|done].
  intros rows2 [g|] rows3 Hg Hrows2 Hgr; [|done].
  injection Hgr as <-. intros [Hr|Hr]%elem_of_app; [by apply Hrows2|].
  apply list_elem_of_fmap in Hr as (t & -> & Ht).
  by exists word, gs, g, t.
Qed.

Lemma append_group_count (k : option str) (group : option TranslationGroup) (d : pages) :
  group_count (append_group k group d) = S (group_count d).
Proof.
  unfold group_count. induction d as [|[k' gs] d IH]; [done|].
  cbn [append_group]. case_decide.
  - rewrite !fmap_cons. cbn [sum_list snd]. rewrite length_app. simpl. lia.
  - rewrite !fmap_cons. cbn [sum_list snd]. rewrite IH. lia.
Qed.

(** ** The claims *)

(** C1. On [t|fr|[[bon]] [[matin]]] the decoder leaves the link markers
    in the text and keeps [is_equivalent_term] true: the test for the
    markers reads the first token after the template name, which is the
    language code, and only looks for the closing marker. *)
Theorem decode_term_linked_phrase :
  decode_term (Py.split 124 (py "t|fr|[[bon]] [[matin]]"))
    = Ok (new_Translation (py "fr") (py "[[bon]] [[matin]]")).
Proof. vm_compute. reflexivity. Qed.

(** The equivalence test of the decoder depends on the language code
    alone: an entry is marked as not equivalent exactly when its language
    code contains the closing link marker. *)
Lemma decode_term_equivalence_reads_language (arguments : list str) (e : Translation) :
  decode_term arguments = Ok e ->
  is_equivalent_term e = negb (Py.contains (py "]]") (language_code e)).
Proof.
  intros H. apply decode_term_Ok_inv in H as (type & rest & p1 & more & kw & _ & _ & _ & He).
  by rewrite He at 1.
Qed.

(** C2, as the spec words it, fails: the call [{{t||}}] decodes to an
    entry whose language code and text are both empty, and the row is
    stored. *)
Lemma decode_term_empty_fields :
  decode_term (Py.split 124 (py "t||")) = Ok (new_Translation [] [])
  /\ extract [ln "<title>W</title>"; ln "{{trans-top|m}}"; ln "* {{t||}}";
              ln "{{trans-bottom}}"]
     = Ok [mkRow (Some (py "W")) (py "m") [] [] true None None None None None None]
  /\ ~ (forall arguments e, decode_term arguments = Ok e ->
          language_code e <> [] /\ translation e <> []).
Proof.
  assert (decode_term (Py.split 124 (py "t||")) = Ok (new_Translation [] [])) as H
    by (vm_compute; reflexivity).
  split; [exact H|]. split; [vm_compute; reflexivity|].
  intros Hall. by destruct (Hall _ _ H) as [Hl _].
Qed.

(** C2, amended. An entry that exists after a successful decode comes
    from a call with an accepted template name and at least two
    positional arguments: its language code is the first positional
    argument and its text is the second, verbatim or with the link
    markers removed.  Every stored row carries the language code and the
    text of such an entry, and a token group whose decoding fails leaves
    the open group unchanged. *)
Theorem decoded_entry_fields :
  (forall arguments e, decode_term arguments = Ok e ->
     exists type rest second more keyword,
       arguments = type :: rest /\ type ∈ accepted_types /\
       generate_arguments rest = Ok (language_code e :: second :: more, keyword) /\
       (translation e = second \/ translation e = strip_links second))
  /\ (forall lines rows r, extract lines = Ok rows -> r ∈ rows ->
        exists codeblock e, decode_term codeblock = Ok e /\
          col_language r = language_code e /\ col_translation r = translation e)
  /\ (forall q group codeblock msg,
        decode_term codeblock = Raise (TypeError msg) ->
        exists q', codeblock_step (q, group) codeblock = Ok (q', group)).
Proof.
  split; [|split].
  - intros arguments e H.
    apply decode_term_Ok_inv in H as (type & rest & p1 & more & kw & -> & Ht & Hg & He).
    exists type, (language_code e :: rest), p1, more, kw. repeat split; try done.
    rewrite He. unfold decoded. simpl.
    destruct (Py.contains _ _); [by right | by left].
  - intros lines rows r Hex Hr. unfold extract in Hex.
    destruct (run_total lines initial sound_initial) as (st & Hrun & _ & _ & Hpages).
    rewrite Hrun in Hex. cbn [mbind outcome_bind] in Hex.
    destruct (output_rows _ _ _ Hex Hr) as (word & gs & g & t & Hd & Hg & Ht & ->).
    unfold pages_from_calls in Hpages. rewrite Forall_forall in Hpages.
    specialize (Hpages _ Hd). simpl in Hpages. rewrite Forall_forall in Hpages.
    specialize (Hpages _ Hg g eq_refl). rewrite Forall_forall in Hpages.
    destruct (Hpages _ Ht) as (cb & e & q & Hdec & ->).
    by exists cb, e.
  - intros q group codeblock msg Hd.
    destruct (sets_qualifier_cases codeblock) as [(rest & Hne & ->)|Hq].
    + eexists. by apply codeblock_step_qualifier.
    + exists q. by apply (codeblock_step_skip _ _ _ msg).
Qed.

Lemma decoded_entry_fields_witness :
  exists type rest second more keyword,
    Py.split 124 (py "t|de|Hund|m") = type :: rest /\ type ∈ accepted_types /\
    generate_arguments rest = Ok (py "de" :: second :: more, keyword) /\
    (py "Hund" = second \/ py "Hund" = strip_links second).
Proof.
  apply (proj1 decoded_entry_fields (Py.split 124 (py "t|de|Hund|m"))
           (set_gender (Some (py "m")) (new_Translation (py "de") (py "Hund")))).
  vm_compute. reflexivity.
Defined.

(** C5. On a non-empty token group the decoder fails with
    [UnrecognizedTemplate] exactly when the first token is not one of
    the accepted template names and, for an accepted name and
    well-ordered arguments, with [MissingRequiredArgument] exactly when
    the splitter yields fewer than two positional arguments;
    [x|en|hello] fails with [UnrecognizedTemplate].  A failed decode
    leaves the qualifier and the open group as they were, the scan goes
    on with the next template call, and no input makes the run raise. *)
Theorem decode_term_failures :
  (forall type rest,
     decode_term (type :: rest) = Raise UnrecognizedTemplate <-> type ∉ accepted_types)
  /\ (forall type rest positional keyword,
        type ∈ accepted_types ->
        generate_arguments rest = Ok (positional, keyword) ->
        (decode_term (type :: rest) = Raise MissingRequiredArgument
         <-> (length positional < 2)%nat))
  /\ decode_term (Py.split 124 (py "x|en|hello")) = Raise UnrecognizedTemplate
  /\ (forall q group codeblock codeblocks e,
        decode_term codeblock = Raise e ->
        e = UnrecognizedTemplate \/ e = MissingRequiredArgument \/ e = MalformedArguments ->
        ~ sets_qualifier codeblock ->
        codeblock_step (q, group) codeblock = Ok (q, group) /\
        for_each codeblock_step (q, group) (codeblock :: codeblocks)
          = for_each codeblock_step (q, group) codeblocks)
  /\ (forall lines, exists st, run initial lines = Ok st).
Proof.
  split; [|split; [|split; [|split]]].
  - intros type rest. split; [|apply decode_term_unrecognized].
    intros H Ht. rewrite (decode_term_accepted _ _ Ht) in H.
    destruct (generate_arguments_cases rest) as [Hg|Hg]; rewrite Hg in H; [done|].
    destruct (filter _ rest) as [|p0 [|second more]]; [done..|].
    by destruct rest.
  - intros type rest positional keyword Ht Hg.
    rewrite (decode_term_accepted _ _ Ht), Hg.
    destruct positional as [|p0 [|second more]]; simpl; [split; [lia|done]..|].
    split; [|lia]. by destruct rest.
  - vm_compute. reflexivity.
  - intros q group codeblock codeblocks e Hd He Hq.
    assert (codeblock_step (q, group) codeblock = Ok (q, group)) as Hstep.
    { destruct He as [-> | [-> | ->]];
        by apply (codeblock_step_skip _ _ _ _ Hd). }
    split; [done|]. cbn [for_each]. by rewrite Hstep.
  - intros lines. destruct (run_total lines initial sound_initial) as (st & H & _).
    by exists st.
Qed.

Lemma decode_term_failures_witness :
  decode_term [py "t"; py "fr"] = Raise MissingRequiredArgument
  /\ (codeblock_step (Some (py "formal"), None) [py "t"; py "fr"]
        = Ok (Some (py "formal"), None)
      /\ for_each codeblock_step (Some (py "formal"), None)
           [[py "t"; py "fr"]; [py "t"; py "es"; py "hola"]]
         = for_each codeblock_step (Some (py "formal"), None)
             [[py "t"; py "es"; py "hola"]]).
Proof.
  assert (decode_term [py "t"; py "fr"] = Raise MissingRequiredArgument) as Hd.
  { apply (proj1 (proj2 decode_term_failures) (py "t") [py "fr"] [py "fr"] ∅).
    - unfold accepted_types. apply elem_of_cons. left. reflexivity.
    - vm_compute. reflexivity.
    - simpl. lia. }
  split; [exact Hd|].
  apply (proj1 (proj2 (proj2 (proj2 decode_term_failures)))
           (Some (py "formal")) None [py "t"; py "fr"] [[py "t"; py "es"; py "hola"]]
           MissingRequiredArgument Hd).
  - right. left. reflexivity.
  - intros (rest & _ & H). discriminate H.
Defined.

(** C8. The keyword fields of a decoded entry are the values of the
    keywords [sc], [tr], [alt], [lit] and [g]; the gender is the value
    of [g] when that keyword is present, also when there is a third
    positional argument, and the third positional argument otherwise.
    [t|de|Hund|g=m] decodes with gender [m]. *)
Theorem decode_term_keywords :
  (forall type rest positional keyword e,
     generate_arguments rest = Ok (positional, keyword) ->
     decode_term (type :: rest) = Ok e ->
     script_code e = keyword !! py "sc" /\
     transliteration e = keyword !! py "tr" /\
     alternate_form e = keyword !! py "alt" /\
     literal_translation e = keyword !! py "lit" /\
     (forall v, keyword !! py "g" = Some v -> gender e = Some v) /\
     (keyword !! py "g" = None -> gender e = positional !! 2%nat))
  /\ (exists e, decode_term (Py.split 124 (py "t|de|Hund|g=m")) = Ok e /\
        gender e = Some (py "m"))
  /\ (exists e, decode_term (Py.split 124 (py "t|de|Hund|f|g=m")) = Ok e /\
        gender e = Some (py "m")).
Proof.
  split; [|split].
  - intros type rest positional keyword e Hg Hd.
    destruct (decide (type ∈ accepted_types)) as [Ht|Ht];
      [|by rewrite decode_term_unrecognized in Hd].
    rewrite (decode_term_accepted _ _ Ht), Hg in Hd.
    destruct positional as [|p0 [|second more]]; [done..|].
    destruct rest as [|a1 rest]; [done|]. injection Hd as <-.
    unfold decoded. simpl. repeat split; try done.
    + by intros v ->.
    + intros ->. by destruct more.
  - eexists. split; [vm_compute; reflexivity|]. reflexivity.
  - eexists. split; [vm_compute; reflexivity|]. reflexivity.
Qed.

Lemma decode_term_keywords_witness :
  gender (set_transliteration (Some (py "khund"))
            (set_gender (Some (py "m")) (new_Translation (py "de") (py "Hund"))))
    = Some (py "m").
Proof.
  apply (proj1 decode_term_keywords (py "t") [py "de"; py "Hund"; py "f"; py "tr=khund"; py "g=m"]
           [py "de"; py "Hund"; py "f"]
           (<[py "g" := py "m"]> (<[py "tr" := py "khund"]> ∅))).
  - vm_compute. reflexivity.
  - vm_compute. reflexivity.
  - vm_compute. reflexivity.
Defined.

(** A block-close line appends the current [group] to the list of the
    current page whether or not a block is open. *)
Lemma step_closes (st : state) (line : str) :
  closes line = true ->
  step st line
    = Ok (mkState (page_title st) false (group st)
            (append_group (page_title st) (group st) (all_translations st))).
Proof.
  unfold closes, is_title, step. intros H.
  destruct (Py.contains (py "<title>") line); [done|].
  destruct (Py.contains (py "{{trans-top|") line); [done|].
  simpl in H. by rewrite H.
Qed.

Lemma step_closes_grows (st st' : state) (line : str) :
  closes line = true -> step st line = Ok st' ->
  group_count (all_translations st') = S (group_count (all_translations st)).
Proof.
  intros Hc. rewrite (step_closes _ _ Hc). intros [= <-]. apply append_group_count.
Qed.

(** C3. A block-close line read when no block is open is not a no-op.
    As the first line of the input it files [None] as a group under the
    title [None], and the output loop then raises on it, so nothing is
    stored; after a closed block it files the closed group a second
    time, and its rows are stored twice. *)
Theorem close_while_idle :
  recording initial = false
  /\ step initial (ln "{{trans-bottom}}")
     = Ok (mkState None false None [(None, [None])])
  /\ extract [ln "{{trans-bottom}}"] = Raise AttributeError
  /\ extract [ln "<title>Word</title>"; ln "{{trans-top|greeting}}";
              ln "* Spanish: {{t|es|hola}}"; ln "{{trans-bottom}}"]
     = Ok [mkRow (Some (py "Word")) (py "greeting") (py "es") (py "hola") true
             None None None None None None]
  /\ extract [ln "<title>Word</title>"; ln "{{trans-top|greeting}}";
              ln "* Spanish: {{t|es|hola}}"; ln "{{trans-bottom}}";
              ln "{{trans-bottom}}"]
     = Ok [mkRow (Some (py "Word")) (py "greeting") (py "es") (py "hola") true
             None None None None None None;
           mkRow (Some (py "Word")) (py "greeting") (py "es") (py "hola") true
             None None None None None None].
Proof. repeat split; vm_compute; reflexivity. Qed.

(** C6. Only a block-close line files a group.  Whatever follows the
    last block-close line of the input (block-open lines and
    translations included) adds nothing to the output, so a group still
    open at the end of the input is not emitted; and the lines between
    a block-open line and the next block-open line, when none of them
    is a block-close or title line, can be deleted without changing the
    output, so an abandoned group is never emitted. *)
Theorem only_closed_groups_emitted :
  (forall st lines st',
     Forall (fun line => closes line = false) lines -> sound st ->
     run st lines = Ok st' -> all_translations st' = all_translations st)
  /\ (forall lines tail,
        Forall (fun line => closes line = false) tail ->
        extract (lines ++ tail) = extract lines)
  /\ (forall before abandoned line after,
        Forall (fun line => is_title line = false /\ closes line = false) abandoned ->
        opens line = true ->
        extract (before ++ abandoned ++ line :: after) = extract (before ++ line :: after)).
Proof.
  split; [|split].
  - intros st lines st' Hall Hst Hrun.
    destruct (run_no_close lines st Hst Hall) as (st1 & Hrun1 & _ & Hd).
    rewrite Hrun1 in Hrun. by injection Hrun as <-.
  - intros lines tail Hall. unfold extract. rewrite run_app.
    destruct (run_total lines initial sound_initial) as (st & -> & Hst).
    cbn [mbind outcome_bind].
    destruct (run_no_close tail st Hst Hall) as (st1 & -> & _ & Hd).
    cbn [mbind outcome_bind]. by rewrite Hd.
  - intros before abandoned line after Hall Ho. unfold extract.
    rewrite !run_app.
    destruct (run_total before initial sound_initial) as (st & -> & Hst).
    cbn [mbind outcome_bind]. rewrite run_app.
    destruct (run_inside abandoned st Hst Hall) as (st1 & -> & _ & Hd & Hp).
    cbn [mbind outcome_bind]. unfold run. cbn [for_each].
    by rewrite (step_opens st st1 line Ho Hp Hd).
Qed.

Lemma only_closed_groups_emitted_witness :
  extract ([ln "<title>Word</title>"; ln "{{trans-top|greeting}}";
            ln "* Spanish: {{t|es|hola}}"; ln "{{trans-bottom}}"]
           ++ [ln "{{trans-top|farewell}}"; ln "* Spanish: {{t|es|adios}}"])
    = Ok [mkRow (Some (py "Word")) (py "greeting") (py "es") (py "hola") true
            None None None None None None]
  /\ extract ([ln "<title>Word</title>"]
              ++ [ln "{{trans-top|farewell}}"; ln "* Spanish: {{t|es|adios}}"]
              ++ ln "{{trans-top|greeting}}"
                 :: [ln "* Spanish: {{t|es|hola}}"; ln "{{trans-bottom}}"])
     = Ok [mkRow (Some (py "Word")) (py "greeting") (py "es") (py "hola") true
             None None None None None None].
Proof.
  split.
  - rewrite (proj1 (proj2 only_closed_groups_emitted)).
    + vm_compute. reflexivity.
    + repeat constructor.
  - rewrite (proj2 (proj2 only_closed_groups_emitted)).
    + vm_compute. reflexivity.
    + repeat constructor.
    + vm_compute. reflexivity.
Defined.

(** ** Further properties of the argument splitter *)

Lemma filter_all {A} (P : A -> Prop) `{forall x, Decision (P x)} (l : list A) :
  Forall P l -> filter P l = l.
Proof.
  induction 1 as [|x l Hx _ IH]; [done|]. by rewrite filter_cons, decide_True, IH.
Qed.

Lemma filter_none {A} (P : A -> Prop) `{forall x, Decision (P x)} (l : list A) :
  Forall (fun x => ~ P x) l -> filter P l = [].
Proof.
  induction 1 as [|x l Hx _ IH]; [done|]. by rewrite filter_cons, decide_False, IH.
Qed.

Lemma ordered_partition (arguments : list str) :
  ordered false arguments = true ->
  arguments = filter (fun a => ~ is_keyword a) arguments ++ filter is_keyword arguments.
Proof.
  induction arguments as [|a rest IH]; [done|]. cbn [ordered].
  rewrite !filter_cons. destruct (decide (is_keyword a)) as [Ha|Ha].
  - rewrite (bool_decide_eq_true_2 _ Ha). intros Hall%ordered_seen.
    rewrite decide_False by tauto.
    rewrite (filter_all is_keyword rest Hall).
    rewrite filter_none; [done|].
    eapply Forall_impl; [exact Hall|]. tauto.
  - rewrite (bool_decide_eq_false_2 _ Ha). cbn [negb andb]. intros Ho.
    rewrite decide_True by done. cbn [app]. by rewrite <- IH.
Qed.

Lemma generate_arguments_Ok_inv (arguments positional : list str) (keyword : gmap str str) :
  generate_arguments arguments = Ok (positional, keyword) ->
  ordered false arguments = true /\
  positional = filter (fun a => ~ is_keyword a) arguments /\
  keyword = foldl insert_pair ∅ (key_value <$> filter is_keyword arguments).
Proof.
  intros H. destruct (ordered false arguments) eqn:Ho.
  - rewrite (generate_arguments_ordered _ Ho) in H. by injection H as <- <-.
  - by rewrite (generate_arguments_misordered _ Ho) in H.
Qed.

(** X1. When the splitter succeeds, the token list is its positional
    arguments followed by its keyword tokens: nothing is dropped or
    reordered. *)
Theorem generate_arguments_partition
    (arguments positional : list str) (keyword : gmap str str) :
  generate_arguments arguments = Ok (positional, keyword) ->
  exists keyword_tokens,
    arguments = positional ++ keyword_tokens /\
    Forall (fun a => ~ is_keyword a) positional /\
    Forall is_keyword keyword_tokens.
Proof.
  intros (Ho & -> & _)%generate_arguments_Ok_inv.
  exists (filter is_keyword arguments). split; [by apply ordered_partition|].
  split; apply Forall_forall; by intros a [Ha _]%list_elem_of_filter.
Qed.

Lemma generate_arguments_partition_witness :
  exists keyword_tokens,
    [py "de"; py "Hund"; py "tr=a=b"; py "g=m"] = [py "de"; py "Hund"] ++ keyword_tokens /\
    Forall (fun a => ~ is_keyword a) [py "de"; py "Hund"] /\
    Forall is_keyword keyword_tokens.
Proof.
  apply (generate_arguments_partition [py "de"; py "Hund"; py "tr=a=b"; py "g=m"]
           [py "de"; py "Hund"]
           (<[py "g" := py "m"]> (<[py "tr" := py "a=b"]> ∅))).
  vm_compute. reflexivity.
Defined.

Lemma foldl_insert_pair_lookup (pairs : list (str * str)) : forall (d : gmap str str) k v,
  foldl insert_pair d pairs !! k = Some v -> d !! k = Some v \/ (k, v) ∈ pairs.
Proof.
  induction pairs as [|[k' v'] pairs IH]; intros d k v H; [by left|].
  cbn [foldl] in H. destruct (IH _ _ _ H) as [Hd|Hin].
  - unfold insert_pair in Hd. cbn [fst snd] in Hd.
    destruct (decide (k' = k)) as [->|Hne].
    + rewrite lookup_insert_eq in Hd. injection Hd as ->. right.
      apply elem_of_cons. by left.
    + rewrite lookup_insert_ne in Hd by done. by left.
  - right. apply elem_of_cons. by right.
Qed.

(** X2. Every entry of the returned dictionary comes from a token of
    the input: its key is the text before the first [=] of that token
    and its value the text after it.  A key that no token carries is
    absent from the dictionary. *)
Theorem generate_arguments_lookup
    (arguments positional : list str) (keyword : gmap str str) (key : str) :
  generate_arguments arguments = Ok (positional, keyword) ->
  (forall value, keyword !! key = Some value ->
     exists argument, argument ∈ arguments /\ split_at_first_eq argument key value)
  /\ ((forall value, key ++ py "=" ++ value ∉ arguments) -> keyword !! key = None).
Proof.
  intros (_ & _ & ->)%generate_arguments_Ok_inv.
  assert (forall value,
            foldl insert_pair ∅ (key_value <$> filter is_keyword arguments) !! key
              = Some value ->
            exists argument, argument ∈ arguments /\ split_at_first_eq argument key value)
    as Hsound.
  { intros value [H|H]%foldl_insert_pair_lookup; [by rewrite lookup_empty in H|].
    apply list_elem_of_fmap in H as (a & Hkv & [Ha Hin]%list_elem_of_filter).
    exists a. split; [done|]. pose proof (key_value_split a Ha) as Hs.
    by rewrite <- Hkv in Hs. }
  split; [exact Hsound|]. intros Hmissing.
  destruct (foldl insert_pair _ _ !! key) as [value|] eqn:E; [|done].
  destruct (Hsound value eq_refl) as (a & Hin & -> & _). by destruct (Hmissing value).
Qed.

Lemma generate_arguments_lookup_witness :
  (forall value,
     (<[py "g" := py "m"]> (<[py "tr" := py "a=b"]> (∅ : gmap str str))) !! py "tr"
       = Some value ->
     exists argument,
       argument ∈ [py "de"; py "Hund"; py "tr=a=b"; py "g=m"] /\
       split_at_first_eq argument (py "tr") value)
  /\ ((forall value, py "tr" ++ py "=" ++ value ∉ [py "de"; py "Hund"; py "tr=a=b"; py "g=m"]) ->
      (<[py "g" := py "m"]> (<[py "tr" := py "a=b"]> (∅ : gmap str str))) !! py "tr" = None).
Proof.
  apply (generate_arguments_lookup [py "de"; py "Hund"; py "tr=a=b"; py "g=m"]
           [py "de"; py "Hund"]).
  vm_compute. reflexivity.
Defined.

Lemma generate_arguments_plain (arguments : list str) :
  Forall (fun a => ~ is_keyword a) arguments ->
  generate_arguments arguments = Ok (arguments, ∅).
Proof.
  intros Hall.
  assert (ordered false arguments = true) as Ho.
  { induction Hall as [|x l Hx Hl IHl]; [done|]. cbn [ordered].
    by rewrite (bool_decide_eq_false_2 _ Hx). }
  rewrite (generate_arguments_ordered _ Ho).
  rewrite (filter_none is_keyword arguments Hall).
  by rewrite (filter_all (fun a => ~ is_keyword a) arguments Hall).
Qed.

(** X3. A token list without any [=] is returned unchanged as the
    positional arguments, with an empty dictionary; in particular the
    empty list gives no arguments at all. *)
Theorem generate_arguments_all_positional (arguments : list str) :
  Forall (fun a => ~ is_keyword a) arguments ->
  generate_arguments arguments = Ok (arguments, ∅).
Proof. apply generate_arguments_plain. Qed.

Lemma generate_arguments_all_positional_witness :
  generate_arguments [py "ja"; py "nihongo"] = Ok ([py "ja"; py "nihongo"], ∅).
Proof.
  apply generate_arguments_all_positional.
  repeat constructor; intros H%contains_single; by vm_compute in H.
Defined.

(** ** Further properties of the term decoder *)

Lemma decode_term_plain (type lc text : str) (more : list str) :
  type ∈ accepted_types ->
  Forall (fun a => ~ is_keyword a) (lc :: text :: more) ->
  Py.contains (py "]]") lc = false ->
  decode_term (type :: lc :: text :: more)
    = Ok (set_gender (head more) (new_Translation lc text)).
Proof.
  intros Ht Hall Hlc.
  rewrite (decode_term_accepted _ _ Ht), (generate_arguments_plain _ Hall).
  unfold decoded. rewrite Hlc, !lookup_empty. done.
Qed.

(** X4. A call with an accepted name whose arguments are all positional
    and whose language code has no closing link marker decodes to the
    entry with that language code and text, the third argument (if any)
    as gender, no keyword field set and [is_equivalent_term] true;
    arguments after the third are ignored. *)
Theorem decode_term_positional (type lc text : str) (more : list str) :
  type ∈ accepted_types ->
  Forall (fun a => ~ is_keyword a) (lc :: text :: more) ->
  Py.contains (py "]]") lc = false ->
  decode_term (type :: lc :: text :: more)
    = Ok (set_gender (head more) (new_Translation lc text)).
Proof. apply decode_term_plain. Qed.

Lemma decode_term_positional_witness :
  decode_term [py "t+"; py "de"; py "Hund"; py "m"; py "extra"]
    = Ok (set_gender (Some (py "m")) (new_Translation (py "de") (py "Hund"))).
Proof.
  apply (decode_term_positional (py "t+") (py "de") (py "Hund") [py "m"; py "extra"]).
  - unfold accepted_types. apply elem_of_cons. right. apply elem_of_cons. by left.
  - repeat constructor; intros H%contains_single; by vm_compute in H.
  - vm_compute. reflexivity.
Defined.

(** X5. The text of a decoded entry is the token that follows the
    language code, and whether it is kept verbatim depends on the
    language code alone: when the language code contains the closing
    link marker the entry is marked as not equivalent and the link
    markers are removed from the text, otherwise the entry is marked as
    equivalent and the text is kept as written. *)
Theorem decode_term_text (arguments : list str) (e : Translation) :
  decode_term arguments = Ok e ->
  exists type second rest,
    arguments = type :: language_code e :: second :: rest /\
    is_equivalent_term e = negb (Py.contains (py "]]") (language_code e)) /\
    translation e =
      if Py.contains (py "]]") (language_code e) then strip_links second else second.
Proof.
  intros H. pose proof (decode_term_equivalence_reads_language _ _ H) as Heq.
  apply decode_term_Ok_inv in H as (type & rest & second & more & kw & -> & _ & Hg & He).
  apply generate_arguments_Ok_inv in Hg as (Ho & Hpos & _).
  pose proof (ordered_partition _ Ho) as Hargs. rewrite <- Hpos in Hargs.
  injection Hargs as ->.
  exists type, second, (more ++ filter is_keyword (language_code e :: rest)).
  split; [done|]. split; [done|].
  by rewrite He at 1.
Qed.

Lemma decode_term_text_witness :
  exists type second rest,
    [py "t"; py "fr"; py "[[bon]] [[matin]]"] = type :: py "fr" :: second :: rest /\
    true = negb (Py.contains (py "]]") (py "fr")) /\
    py "[[bon]] [[matin]]" =
      if Py.contains (py "]]") (py "fr") then strip_links second else second.
Proof.
  apply (decode_term_text [py "t"; py "fr"; py "[[bon]] [[matin]]"]
           (new_Translation (py "fr") (py "[[bon]] [[matin]]"))).
  vm_compute. reflexivity.
Defined.

(** X6. The decoder never sets the qualifier of the entry it returns. *)
Theorem decode_term_no_qualifier (arguments : list str) (e : Translation) :
  decode_term arguments = Ok e -> qualifier e = None.
Proof.
  intros (type & rest & second & more & kw & _ & _ & _ & ->)%decode_term_Ok_inv.
  done.
Qed.

Lemma decode_term_no_qualifier_witness :
  qualifier (set_gender (Some (py "m")) (new_Translation (py "de") (py "Hund"))) = None.
Proof.
  apply (decode_term_no_qualifier [py "t"; py "de"; py "Hund"; py "g=m"]).
  vm_compute. reflexivity.
Defined.

Lemma ordered_snoc_keyword (arguments : list str) (a : str) : forall seen,
  is_keyword a -> ordered seen arguments = true -> ordered seen (arguments ++ [a]) = true.
Proof.
  induction arguments as [|x rest IH]; intros seen Ha Ho.
  - cbn [app ordered]. by rewrite (bool_decide_eq_true_2 _ Ha).
  - cbn [app ordered] in *. destruct (bool_decide (is_keyword x)); [by apply IH|].
    apply andb_true_iff in Ho as [-> Ho]. by apply IH.
Qed.

Lemma generate_arguments_snoc_keyword
    (arguments positional : list str) (keyword : gmap str str) (key value : str) :
  61%N ∉ key ->
  generate_arguments arguments = Ok (positional, keyword) ->
  generate_arguments (arguments ++ [key ++ py "=" ++ value])
    = Ok (positional, <[key := value]> keyword).
Proof.
  intros Hkey (Ho & -> & ->)%generate_arguments_Ok_inv.
  pose proof (key_value_first key value Hkey) as Hkv.
  assert (is_keyword (key ++ py "=" ++ value)) as Hkw.
  { unfold is_keyword. rewrite elem_of_app. right. apply elem_of_cons. by left. }
  revert Hkv Hkw. generalize (key ++ py "=" ++ value) as tok. intros tok Hkv Hkw.
  etransitivity;
    [exact (generate_arguments_ordered _ (ordered_snoc_keyword _ _ _ Hkw Ho))|].
  rewrite !filter_app, !filter_cons, !filter_nil.
  rewrite (decide_True _ _ Hkw), decide_False by tauto.
  rewrite app_nil_r, fmap_app, foldl_app, fmap_cons, Hkv. done.
Qed.

(** X7. A keyword that the decoder does not know is ignored: adding
    such a keyword token at the end of a call that decodes does not
    change the entry. *)
Theorem decode_term_unknown_keyword (arguments : list str) (e : Translation)
    (key value : str) :
  61%N ∉ key ->
  key ∉ [py "sc"; py "tr"; py "alt"; py "lit"; py "g"] ->
  decode_term arguments = Ok e ->
  decode_term (arguments ++ [key ++ py "=" ++ value]) = Ok e.
Proof.
  intros Hkey Hunknown H.
  apply decode_term_Ok_inv in H as (type & rest & second & more & kw & -> & Ht & Hg & He).
  cbn [app]. rewrite (decode_term_accepted _ _ Ht).
  change (language_code e :: rest ++ [key ++ py "=" ++ value])
    with ((language_code e :: rest) ++ [key ++ py "=" ++ value]).
  rewrite (generate_arguments_snoc_keyword _ _ _ _ value Hkey Hg). cbn [app].
  rewrite He at 3. unfold decoded.
  rewrite !not_elem_of_cons in Hunknown.
  destruct Hunknown as (Hsc & Htr & Halt & Hlit & Hgk & _).
  by rewrite !lookup_insert_ne by done.
Qed.

Lemma decode_term_unknown_keyword_witness :
  decode_term ([py "t"; py "de"; py "Hund"; py "g=m"] ++ [py "id" ++ py "=" ++ py "Q144"])
    = Ok (set_gender (Some (py "m")) (new_Translation (py "de") (py "Hund"))).
Proof.
  apply decode_term_unknown_keyword.
  - intros H%contains_single. by vm_compute in H.
  - intros H. repeat (apply elem_of_cons in H as [H|H]; [discriminate|]).
    by apply not_elem_of_nil in H.
  - vm_compute. reflexivity.
Defined.

(** ** Further properties of the block tokenizer *)

Lemma split_cons_sep (sep : N) (s : str) : Py.split sep (sep :: s) = [] :: Py.split sep s.
Proof. cbn [Py.split]. by rewrite N.eqb_refl. Qed.

Lemma split_cons_other (sep c : N) (s : str) :
  c <> sep ->
  exists seg segs, Py.split sep s = seg :: segs /\ Py.split sep (c :: s) = (c :: seg) :: segs.
Proof.
  intros Hc. cbn [Py.split]. apply N.eqb_neq in Hc as ->.
  destruct (Py.split sep s) as [|seg segs] eqn:E; [by apply split_nonempty in E|].
  by exists seg, segs.
Qed.

Lemma join_cons_char (sep : str) (c : N) (seg : str) (segs : list str) :
  Py.join sep ((c :: seg) :: segs) = c :: Py.join sep (seg :: segs).
Proof. by destruct segs. Qed.

Lemma split_join (sep : N) (s : str) : Py.join [sep] (Py.split sep s) = s.
Proof.
  induction s as [|c s IH]; [done|].
  destruct (decide (c = sep)) as [->|Hc].
  - rewrite split_cons_sep.
    destruct (Py.split sep s) as [|seg segs] eqn:E; [by apply split_nonempty in E|].
    change (Py.join [sep] ([] :: seg :: segs))
      with ([] ++ [sep] ++ Py.join [sep] (seg :: segs)).
    by rewrite IH.
  - destruct (split_cons_other sep c s Hc) as (seg & segs & E & ->).
    rewrite join_cons_char. rewrite E in IH. by rewrite IH.
Qed.

Lemma split_pieces (sep : N) (s : str) :
  Forall (fun piece => (sep ∉ piece) /\ (forall c, c ∈ piece -> c ∈ s)) (Py.split sep s).
Proof.
  induction s as [|c s IH].
  - repeat constructor; [apply not_elem_of_nil | done].
  - assert (Forall (fun piece => (sep ∉ piece) /\ (forall x, x ∈ piece -> x ∈ c :: s))
              (Py.split sep s)) as IH'.
    { eapply Forall_impl; [exact IH|]. intros piece [Hs Hin]. split; [done|].
      intros x Hx. apply elem_of_cons. right. by apply Hin. }
    destruct (decide (c = sep)) as [->|Hc].
    + rewrite split_cons_sep. constructor; [|done].
      split; [apply not_elem_of_nil|]. by intros x Hx%not_elem_of_nil.
    + destruct (split_cons_other sep c s Hc) as (seg & segs & E & ->).
      rewrite E in IH'. apply Forall_cons in IH' as [[Hseg Hin] Hsegs].
      constructor; [|done]. split.
      * apply not_elem_of_cons. split; [done|done].
      * intros x [->|Hx]%elem_of_cons; [apply elem_of_cons; by left|by apply Hin].
Qed.

Lemma split_prefix (sep : N) (pre s : str) :
  sep ∉ pre -> Py.split sep (pre ++ sep :: s) = pre :: Py.split sep s.
Proof.
  induction pre as [|c pre IH]; intros Hn.
  - apply split_cons_sep.
  - apply not_elem_of_cons in Hn as [Hc Hpre]. cbn [app].
    destruct (split_cons_other sep c (pre ++ sep :: s)) as (seg & segs & E & ->);
      [done|].
    rewrite (IH Hpre) in E. by injection E as <- <-.
Qed.

(** X8. A qualifier call hands over its text verbatim: whatever follows
    [qualifier|] inside the braces, vertical bars included, becomes the
    current qualifier, and the open group is not touched.  A bare
    [qualifier] call without any text changes nothing. *)
Theorem qualifier_text_verbatim (q : option str) (group : option TranslationGroup) :
  (forall text,
     codeblock_step (q, group) (Py.split 124 (py "qualifier" ++ py "|" ++ text))
       = Ok (Some text, group))
  /\ codeblock_step (q, group) (Py.split 124 (py "qualifier")) = Ok (q, group).
Proof.
  split.
  - intros text. change (py "|") with [124%N]. cbn [app].
    rewrite split_prefix by (intros H%contains_single; by vm_compute in H).
    rewrite codeblock_step_qualifier by apply split_nonempty.
    change (py "|") with [124%N]. by rewrite split_join.
  - apply (codeblock_step_skip _ _ _ "Incorrect list type"); [by vm_compute|].
    intros (rest & Hne & H). vm_compute in H. injection H as <-. done.
Qed.

Lemma startswith_app_r (p s t : str) :
  Py.startswith p s = true -> Py.startswith p (s ++ t) = true.
Proof.
  intros [y ->]%startswith_inv. rewrite <- app_assoc. apply startswith_app.
Qed.

Lemma find_app_le (sub s t : str) (i : nat) :
  Py.find sub s = Some i -> exists j, Py.find sub (s ++ t) = Some j /\ (j <= i)%nat.
Proof.
  revert i. induction s as [|c s IH]; intros i H.
  - cbn [Py.find] in H. destruct (Py.startswith sub []) eqn:Hs; [|done].
    injection H as <-. exists 0%nat. split; [|done].
    apply (startswith_app_r _ _ t) in Hs. cbn [app] in *.
    destruct t; cbn [Py.find]; by rewrite Hs.
  - cbn [Py.find] in H. destruct (Py.startswith sub (c :: s)) eqn:Hs.
    + injection H as <-. exists 0%nat. split; [|done].
      apply (startswith_app_r _ _ t) in Hs. cbn [app Py.find] in *. by rewrite Hs.
    + destruct (Py.find sub s) as [i'|] eqn:E; [|done]. injection H as <-.
      destruct (IH i' eq_refl) as (j & Hj & Hle). cbn [app Py.find].
      destruct (Py.startswith sub (c :: s ++ t)); [exists 0%nat; split; [done|lia]|].
      rewrite Hj. exists (S j). split; [done|lia].
Qed.

Lemma find_Some_lt (sub s : str) (i : nat) :
  Py.find sub s = Some i -> sub <> [] -> (i < length s)%nat.
Proof.
  intros H Hsub. revert i H. induction s as [|c s IH]; intros i H.
  - cbn [Py.find] in H. by destruct sub.
  - cbn [Py.find] in H. destruct (Py.startswith sub (c :: s)).
    + injection H as <-. simpl. lia.
    + destruct (Py.find sub s) as [i'|]; [|done]. injection H as <-.
      specialize (IH i' eq_refl). simpl. lia.
Qed.

Lemma lazy_body_Some (s m : str) :
  Re.lazy_body s = Some m ->
  exists body rest,
    m = body ++ py "}}" /\ s = m ++ rest /\ (10%N ∉ body) /\
    Py.find (py "}}") m = Some (length body).
Proof.
  revert m. induction s as [|c s IH]; intros m H; [done|].
  cbn [Re.lazy_body] in H.
  destruct (Py.startswith (py "}}") (c :: s)) eqn:Hs.
  - injection H as <-. apply startswith_inv in Hs as [rest Hrest].
    exists [], rest. split; [done|]. split; [done|]. split; [apply not_elem_of_nil|].
    by vm_compute.
  - destruct (c =? 10)%N eqn:Hc; [done|]. apply N.eqb_neq in Hc.
    destruct (Re.lazy_body s) as [m'|] eqn:Hm; [|done]. injection H as <-.
    destruct (IH m' eq_refl) as (body & rest & -> & -> & Hnl & Hfind).
    exists (c :: body), rest. split; [done|]. split; [done|]. split.
    + apply not_elem_of_cons. split; [done|done].
    + cbn [Py.find]. cbn [app] in *.
      destruct (Py.startswith (py "}}") (c :: body ++ py "}}")) eqn:Hs2.
      { apply (startswith_app_r _ _ rest) in Hs2. cbn [app] in Hs2. congruence. }
      rewrite Hfind. done.
Qed.

Lemma match_at_Some (s m : str) :
  Re.match_at s = Some m ->
  exists body rest,
    m = py "{{" ++ body ++ py "}}" /\ s = m ++ rest /\ (10%N ∉ body) /\
    Py.find (py "}}") (body ++ py "}}") = Some (length body).
Proof.
  unfold Re.match_at. destruct (Py.startswith (py "{{") s) eqn:Hs; [|done].
  apply startswith_inv in Hs as [s' ->].
  change (drop 2 (py "{{" ++ s')) with s'.
  destruct (Re.lazy_body s') as [m'|] eqn:Hm; [|done]. intros [= <-].
  destruct (lazy_body_Some _ _ Hm) as (body & rest & -> & -> & Hnl & Hfind).
  exists body, rest. split; [done|]. split; [|done].
  reflexivity.
Qed.

Lemma finditer_from_matches (s : str) : forall skip m,
  m ∈ Re.finditer_from skip s ->
  exists body before after,
    m = py "{{" ++ body ++ py "}}" /\ s = before ++ m ++ after /\ (10%N ∉ body) /\
    Py.find (py "}}") (body ++ py "}}") = Some (length body).
Proof.
  induction s as [|c s IH]; intros skip m Hm.
  - by apply not_elem_of_nil in Hm.
  - assert (forall k, m ∈ Re.finditer_from k s ->
              exists body before after,
                m = py "{{" ++ body ++ py "}}" /\ c :: s = before ++ m ++ after /\
                (10%N ∉ body) /\
                Py.find (py "}}") (body ++ py "}}") = Some (length body)) as Hrec.
    { intros k Hk. destruct (IH k m Hk) as (body & before & after & -> & -> & ? & ?).
      by exists body, (c :: before), after. }
    cbn [Re.finditer_from] in Hm. destruct skip as [|k]; [|by apply (Hrec k)].
    destruct (Re.match_at (c :: s)) as [m'|] eqn:E; [|by apply (Hrec 0%nat)].
    apply elem_of_cons in Hm as [->|Hm]; [|by eapply Hrec].
    destruct (match_at_Some _ _ E) as (body & rest & -> & Hs & ? & ?).
    exists body, [], rest. by rewrite Hs at 1.
Qed.

Lemma slice_inside {A} (body : list A) (a b c d : A) :
  Py.slice (Some 2) (Some (-2)) ([a; b] ++ body ++ [c; d]) = body.
Proof.
  unfold Py.slice, Py.bound. rewrite !length_app. cbn [length].
  destruct (Z.ltb_spec 2 0); [lia|]. destruct (Z.ltb_spec (-2) 0); [|lia].
  rewrite Z.min_l, Z.max_r by lia.
  change (drop (Z.to_nat 2) ([a; b] ++ body ++ [c; d])) with (body ++ [c; d]).
  replace (Z.to_nat _) with (length body) by lia.
  by rewrite take_app_length.
Qed.

(** X9. Every token group the tokenizer produces is the text of a
    template call of the segment: it is not empty, its tokens contain
    neither a vertical bar nor a newline, and the tokens joined with
    vertical bars stand in the segment between an opening and a closing
    double brace, with no closing double brace inside. *)
Theorem codeblocks_are_calls (translation : str) :
  Forall (fun codeblock =>
            codeblock <> [] /\
            Forall (fun token => (124%N ∉ token) /\ (10%N ∉ token)) codeblock /\
            Py.contains (py "}}") (Py.join (py "|") codeblock) = false /\
            exists before after,
              translation
                = before ++ py "{{" ++ Py.join (py "|") codeblock ++ py "}}" ++ after)
    (codeblocks translation).
Proof.
  unfold codeblocks, Re.finditer. apply Forall_fmap, Forall_forall. intros m Hm.
  destruct (finditer_from_matches _ _ _ Hm)
    as (body & before & after & -> & Hs & Hnl & Hfind).
  cbn [compose]. change (py "{{") with [123%N; 123%N]. change (py "}}") with [125%N; 125%N].
  rewrite slice_inside. change (py "|") with [124%N]. rewrite split_join.
  split; [apply split_nonempty|]. split; [|split].
  - eapply Forall_impl; [apply split_pieces|]. intros token [Hbar Hin].
    split; [done|]. intros H. by apply Hnl, Hin.
  - change [125%N; 125%N] with (py "}}") in *. unfold Py.contains.
    destruct (Py.find (py "}}") body) as [i|] eqn:E; [|done].
    destruct (find_app_le _ _ (py "}}") _ E) as (j & Hj & Hle).
    apply find_Some_lt in E; [|done].
    rewrite Hfind in Hj. injection Hj as <-. lia.
  - exists before, after. rewrite Hs. by rewrite <- !app_assoc.
Qed.

(** ** Title and block-open lines *)

Lemma lstrip_spaces (ws s : str) :
  Forall (fun c => Py.isspace c = true) ws -> Py.lstrip (ws ++ s) = Py.lstrip s.
Proof.
  induction 1 as [|c ws Hc _ IH]; [done|]. cbn [app Py.lstrip]. by rewrite Hc.
Qed.

Lemma lstrip_nonspace (c : N) (s : str) :
  Py.isspace c = false -> Py.lstrip (c :: s) = c :: s.
Proof. intros H. cbn [Py.lstrip]. by rewrite H. Qed.

(** [strip] removes the white space around a text that neither starts
    nor ends with white space. *)
Lemma strip_padded (ws1 ws2 core : str) :
  Forall (fun c => Py.isspace c = true) ws1 ->
  Forall (fun c => Py.isspace c = true) ws2 ->
  (exists first rest, core = first :: rest /\ Py.isspace first = false) ->
  (exists init last, core = init ++ [last] /\ Py.isspace last = false) ->
  Py.strip (ws1 ++ core ++ ws2) = core.
Proof.
  intros H1 H2 (first & rest & Hcore & Hf) (init & last & Hcore' & Hl). unfold Py.strip.
  rewrite (lstrip_spaces _ _ H1).
  assert (Py.lstrip (core ++ ws2) = core ++ ws2) as ->.
  { rewrite Hcore. cbn [app]. by apply lstrip_nonspace. }
  rewrite reverse_app, lstrip_spaces by (by apply Forall_reverse).
  assert (Py.lstrip (reverse core) = reverse core) as ->.
  { rewrite Hcore', reverse_app, reverse_singleton. cbn [app].
    by apply lstrip_nonspace. }
  apply reverse_involutive.
Qed.

Lemma slice_between {A} (a t b : list A) :
  (0 < length b)%nat ->
  Py.slice (Some (Z.of_nat (length a))) (Some (- Z.of_nat (length b))) (a ++ t ++ b) = t.
Proof.
  intros Hb. unfold Py.slice, Py.bound. rewrite !length_app.
  destruct (Z.ltb_spec (Z.of_nat (length a)) 0); [lia|].
  destruct (Z.ltb_spec (- Z.of_nat (length b)) 0); [|lia].
  rewrite Z.min_l, Z.max_r by lia. rewrite Nat2Z.id, drop_app_length.
  replace (Z.to_nat _) with (length t) by lia. by rewrite take_app_length.
Qed.

Lemma find_prepend (sub pre s : str) (i : nat) :
  Py.find sub s = Some i -> exists j, Py.find sub (pre ++ s) = Some j.
Proof.
  intros H. induction pre as [|c pre [j IH]]; [by exists i|].
  cbn [app Py.find]. destruct (Py.startswith sub (c :: pre ++ s)); [by exists 0%nat|].
  rewrite IH. by exists (S j).
Qed.

Lemma contains_infix (sub pre post : str) : Py.contains sub (pre ++ sub ++ post) = true.
Proof.
  assert (Py.find sub (sub ++ post) = Some 0%nat) as H.
  { destruct (sub ++ post) eqn:E; cbn [Py.find]; rewrite <- E, startswith_app; done. }
  unfold Py.contains. by destruct (find_prepend sub pre _ _ H) as [j ->].
Qed.

(** X10. On a title line, that is white space, the opening tag, a
    title, the closing tag and white space, the page key becomes the
    title between the tags (with a trailing [/translations] removed),
    whatever the title is; nothing else changes. *)
Theorem step_title_line (st : state) (ws1 ws2 title : str) :
  Forall (fun c => Py.isspace c = true) ws1 ->
  Forall (fun c => Py.isspace c = true) ws2 ->
  step st (ws1 ++ (py "<title>" ++ title ++ py "</title>") ++ ws2)
    = Ok (mkState (Some (merge_subpage title)) (recording st) (group st)
            (all_translations st)).
Proof.
  intros H1 H2.
  assert (Py.contains (py "<title>")
            (ws1 ++ (py "<title>" ++ title ++ py "</title>") ++ ws2) = true) as Hin.
  { rewrite <- (app_assoc (py "<title>")). apply contains_infix. }
  assert (raw_title (ws1 ++ (py "<title>" ++ title ++ py "</title>") ++ ws2) = title)
    as Hraw.
  { unfold raw_title. rewrite (strip_padded _ _ _ H1 H2).
    - apply (slice_between (py "<title>") title (py "</title>")). vm_compute. lia.
    - by exists 60%N, (py "title>" ++ title ++ py "</title>").
    - exists (py "<title>" ++ title ++ py "</title"), 62%N.
      by rewrite <- !app_assoc. }
  unfold step. by rewrite Hin, Hraw.
Qed.

Lemma step_title_line_witness :
  step initial ((py "    " ++ (py "<title>" ++ py "dictionary/translations" ++ py "</title>"))
                ++ [10%N])
    = Ok (mkState (Some (py "dictionary")) false None []).
Proof.
  rewrite <- app_assoc.
  rewrite (step_title_line initial (py "    ") [10%N] (py "dictionary/translations")).
  - vm_compute. reflexivity.
  - repeat constructor.
  - repeat constructor.
Defined.

(** X11. On a block-open line, that is white space, [{{trans-top|], a
    gloss, [}}] and white space, with no title tag in it, the loop
    starts recording into a fresh empty group whose meaning is the
    gloss as written; the page key and the dictionary are unchanged and
    the group that was open before is dropped. *)
Theorem step_open_line (st : state) (ws1 ws2 gloss : str) :
  Forall (fun c => Py.isspace c = true) ws1 ->
  Forall (fun c => Py.isspace c = true) ws2 ->
  is_title (ws1 ++ (py "{{trans-top|" ++ gloss ++ py "}}") ++ ws2) = false ->
  step st (ws1 ++ (py "{{trans-top|" ++ gloss ++ py "}}") ++ ws2)
    = Ok (mkState (page_title st) true (Some (mkTranslationGroup gloss []))
            (all_translations st)).
Proof.
  intros H1 H2 Htitle.
  assert (Py.contains (py "{{trans-top|")
            (ws1 ++ (py "{{trans-top|" ++ gloss ++ py "}}") ++ ws2) = true) as Hin.
  { rewrite <- (app_assoc (py "{{trans-top|")). apply contains_infix. }
  assert (Py.slice (Some 12) (Some (-2))
            (Py.strip (ws1 ++ (py "{{trans-top|" ++ gloss ++ py "}}") ++ ws2)) = gloss)
    as Hraw.
  { rewrite (strip_padded _ _ _ H1 H2).
    - apply (slice_between (py "{{trans-top|") gloss (py "}}")). vm_compute. lia.
    - by exists 123%N, (py "{trans-top|" ++ gloss ++ py "}}").
    - exists (py "{{trans-top|" ++ gloss ++ py "}"), 125%N.
      by rewrite <- !app_assoc. }
  unfold step. unfold is_title in Htitle. by rewrite Htitle, Hin, Hraw.
Qed.

Lemma step_open_line_witness :
  step (mkState (Some (py "Word")) true (Some (mkTranslationGroup (py "old") [])) [])
       (py "" ++ (py "{{trans-top|" ++ py "a greeting" ++ py "}}") ++ [10%N])
    = Ok (mkState (Some (py "Word")) true
            (Some (mkTranslationGroup (py "a greeting") [])) []).
Proof.
  apply (step_open_line
           (mkState (Some (py "Word")) true (Some (mkTranslationGroup (py "old") [])) [])
           (py "") [10%N] (py "a greeting")).
  - constructor.
  - repeat constructor.
  - vm_compute. reflexivity.
Defined.

(** ** The dictionary of pages *)

Lemma append_group_keys (k : option str) (g : option TranslationGroup) (d : pages) :
  (append_group k g d).*1 = if decide (k ∈ d.*1) then d.*1 else d.*1 ++ [k].
Proof.
  induction d as [|[k' gs] d IH]; [done|]. cbn [append_group].
  destruct (decide (k' = k)) as [->|Hne].
  - rewrite decide_True; [done|]. apply elem_of_cons. by left.
  - rewrite !fmap_cons, IH. cbn [fst]. destruct (decide (k ∈ d.*1)) as [Hin|Hin].
    + rewrite decide_True; [done|]. apply elem_of_cons. by right.
    + rewrite decide_False; [done|]. intros [->|H]%elem_of_cons; done.
Qed.

Lemma append_group_NoDup (k : option str) (g : option TranslationGroup) (d : pages) :
  NoDup d.*1 -> NoDup (append_group k g d).*1.
Proof.
  intros Hd. rewrite append_group_keys. case_decide; [done|].
  apply NoDup_app. split; [done|]. split; [|apply NoDup_singleton].
  intros x Hx ->%list_elem_of_singleton. done.
Qed.

(** X12. Filing a group under a title adds it at the end of the groups
    of that title and leaves the groups of every other title alone; a
    title that is new becomes the last key, the order of the existing
    keys does not change, and no title is ever a key twice, in any
    dictionary the main loop builds. *)
Theorem append_group_lookup :
  (forall k g d, page_groups k (append_group k g d) = page_groups k d ++ [g])
  /\ (forall k k' g d, k' <> k ->
        page_groups k' (append_group k g d) = page_groups k' d)
  /\ (forall k g d,
        (append_group k g d).*1 = if decide (k ∈ d.*1) then d.*1 else d.*1 ++ [k])
  /\ (forall lines st, run initial lines = Ok st -> NoDup (all_translations st).*1).
Proof.
  split; [|split; [|split]].
  - intros k g d. induction d as [|[k' gs] d IH]; cbn [append_group page_groups].
    + by rewrite decide_True.
    + destruct (decide (k' = k)) as [->|Hne]; cbn [page_groups].
      * by rewrite decide_True.
      * by rewrite decide_False.
  - intros k k' g d Hne. induction d as [|[k'' gs] d IH]; cbn [append_group page_groups].
    + destruct (decide (k = k')); [congruence|done].
    + destruct (decide (k'' = k)) as [->|Hne']; cbn [page_groups].
      * destruct (decide (k = k')); [congruence|done].
      * by rewrite IH.
  - apply append_group_keys.
  - intros lines st Hrun.
    apply (for_each_keeps step (fun st => NoDup (all_translations st).*1) lines initial st);
      [|constructor|done].
    intros s line s' _ Hs Hstep. destruct (closes line) eqn:Hc.
    + rewrite (step_closes _ _ Hc) in Hstep. injection Hstep as <-.
      by apply append_group_NoDup.
    + revert Hstep. unfold step, closes, is_title in *.
      destruct (Py.contains (py "<title>") line); [by intros [= <-]|].
      destruct (Py.contains (py "{{trans-top|") line); [by intros [= <-]|].
      destruct (Py.contains (py "{{trans-bottom}}") line); [done|].
      destruct (Py.contains (py "{{trans-mid}}") line); [by intros [= <-]|].
      destruct (recording s); [|by intros [= <-]].
      destruct (tokenize_line (group s) line); [|done]. by intros [= <-].
Qed.

Lemma append_group_lookup_witness :
  page_groups (Some (py "cat"))
    (append_group (Some (py "dog")) None [(Some (py "cat"), [None])])
  = page_groups (Some (py "cat")) [(Some (py "cat"), [None])].
Proof.
  apply (proj1 (proj2 append_group_lookup)). discriminate.
Defined.

(** ** The output loop and the whole program *)

Lemma none_in_cases (gs : list (option TranslationGroup)) : None ∈ gs \/ None ∉ gs.
Proof.
  induction gs as [|[g|] gs [IH|IH]].
  - right. apply not_elem_of_nil.
  - left. apply elem_of_cons. by right.
  - right. apply not_elem_of_cons. done.
  - left. apply elem_of_cons. by left.
  - left. apply elem_of_cons. by left.
Qed.

Lemma group_rows_loop (word : option str) (gs : list (option TranslationGroup)) :
  forall rows,
    (None ∈ gs -> for_each (group_rows word) rows gs = Raise AttributeError)
    /\ (None ∉ gs ->
        for_each (group_rows word) rows gs = Ok (rows ++ (gs ≫= group_all_rows word))).
Proof.
  induction gs as [|[g|] gs IH]; intros rows.
  - split; [by intros ?%not_elem_of_nil|]. intros _. by rewrite app_nil_r.
  - cbn [for_each group_rows mbind outcome_bind]. destruct (IH (rows ++ (parameters word g <$> translations g))) as [IH1 IH2].
    split.
    + intros [?|Hin]%elem_of_cons; [done|]. by apply IH1.
    + intros [_ Hn]%not_elem_of_cons. rewrite (IH2 Hn), bind_cons, <- app_assoc. done.
  - split; [done|]. intros [? _]%not_elem_of_cons. done.
Qed.

Lemma output_loop (d : pages) : forall rows,
  (has_none d -> for_each page_rows rows d = Raise AttributeError)
  /\ (~ has_none d -> for_each page_rows rows d = Ok (rows ++ all_rows d)).
Proof.
  unfold has_none, all_rows. induction d as [|[word gs] d IH]; intros rows.
  - split; [by intros ?%Exists_nil|]. intros _. by rewrite app_nil_r.
  - cbn [for_each page_rows fst snd].
    destruct (group_rows_loop word gs rows) as [H1 H2]. rewrite Exists_cons. cbn [snd].
    destruct (none_in_cases gs) as [Hin|Hn].
    + rewrite (H1 Hin). split; [done|]. intros Hno. destruct Hno. by left.
    + rewrite (H2 Hn). cbn [mbind outcome_bind].
      destruct (IH (rows ++ (gs ≫= group_all_rows word))) as [IH1 IH2]. split.
      * intros [?|Hd]; [done|]. by apply IH1.
      * intros Hno. rewrite IH2 by tauto. rewrite bind_cons, <- app_assoc. done.
Qed.

(** X13. The output loop raises exactly when some page of the
    dictionary lists [None] among its groups, and then nothing is
    stored; otherwise it stores one row for every entry of every
    group, in the order of the pages, of the groups of a page and of
    the entries of a group. *)
Theorem output_spec (d : pages) :
  (has_none d -> output d = Raise AttributeError)
  /\ (~ has_none d -> output d = Ok (all_rows d)).
Proof. apply (output_loop d []). Qed.

Lemma output_spec_witness :
  output [(Some (py "Word"),
           [Some (mkTranslationGroup (py "greeting") [new_Translation (py "es") (py "hola")])])]
  = Ok (all_rows
          [(Some (py "Word"),
            [Some (mkTranslationGroup (py "greeting")
                     [new_Translation (py "es") (py "hola")])])]).
Proof.
  apply (proj2 (output_spec _)).
  intros [H|H%Exists_nil]%Exists_cons; [|done].
  apply elem_of_cons in H as [H|H%not_elem_of_nil]; [discriminate|done].
Defined.

Lemma has_none_append (k : option str) (g : option TranslationGroup) (d : pages) :
  has_none (append_group k g d) <-> has_none d \/ g = None.
Proof.
  unfold has_none. induction d as [|[k' gs] d IH]; cbn [append_group].
  - rewrite Exists_cons, !Exists_nil. cbn [snd]. rewrite list_elem_of_singleton.
    split; [intros [<-|[]]; by right | intros [[]| ->]; by left].
  - case_decide.
    + rewrite !Exists_cons. cbn [snd]. rewrite elem_of_app, list_elem_of_singleton.
      split; [intros [[?|<-]|?] | intros [[?|?]| ->]]; tauto.
    + rewrite !Exists_cons, IH. tauto.
Qed.

Lemma early_close_snoc (lines : list str) (l : str) :
  early_close (lines ++ [l]) <->
  early_close lines \/ (closes l = true /\ Forall (fun l => opens l = false) lines).
Proof.
  unfold early_close. split.
  - intros (before & line & after & Heq & Hc & Hall).
    destruct after as [|x after _] using rev_ind.
    + apply app_inj_tail in Heq as [-> ->]. by right.
    + left. rewrite app_comm_cons, app_assoc in Heq.
      apply app_inj_tail in Heq as [-> _]. by exists before, line, after.
  - intros [(before & line & after & -> & Hc & Hall)|[Hc Hall]].
    + exists before, line, (after ++ [l]). by rewrite <- app_assoc.
    + by exists lines, l, [].
Qed.

(** What a line does to the open group and to the dictionary. *)
Lemma step_effect (st : state) (line : str) :
  sound st ->
  exists st', step st line = Ok st' /\ sound st'
    /\ (group st' = None <-> group st = None /\ opens line = false)
    /\ all_translations st' =
         if closes line
         then append_group (page_title st) (group st) (all_translations st)
         else all_translations st.
Proof.
  intros Hst. destruct (closes line) eqn:Hc.
  - destruct (step_total st line Hst) as (st' & Hstep & Hst' & _).
    exists st'. split; [done|]. split; [done|].
    rewrite (step_closes _ _ Hc) in Hstep. injection Hstep as <-. cbn.
    split; [|done]. unfold closes, opens in *.
    destruct (is_title line); [done|]. destruct (Py.contains (py "{{trans-top|") line); [done|].
    tauto.
  - destruct (step_total st line Hst) as (st' & Hstep & Hst' & Hd & _).
    exists st'. split; [done|]. split; [done|]. split; [|by apply Hd].
    destruct Hst as (Hopen & _). revert Hstep. unfold step, closes, opens, is_title in *.
    destruct (Py.contains (py "<title>") line); [intros [= <-]; cbn; tauto|].
    destruct (Py.contains (py "{{trans-top|") line);
      [intros [= <-]; cbn; split; [done|by intros [_ ?]]|].
    destruct (Py.contains (py "{{trans-bottom}}") line); [done|].
    destruct (Py.contains (py "{{trans-mid}}") line); [intros [= <-]; cbn; tauto|].
    destruct (recording st) eqn:Hrec; [|intros [= <-]; cbn; tauto].
    destruct (Hopen Hrec) as [g Hg]. rewrite Hg.
    destruct (tokenize_line_total g line) as (new & -> & _).
    intros [= <-]. cbn. split; [done|]. by intros [? _].
Qed.

Lemma run_early_close (lines : list str) :
  exists st, run initial lines = Ok st /\ sound st
    /\ (group st = None <-> Forall (fun l => opens l = false) lines)
    /\ (has_none (all_translations st) <-> early_close lines).
Proof.
  induction lines as [|l lines (st & Hrun & Hst & Hg & Hd)] using rev_ind.
  - exists initial. split; [done|]. split; [apply sound_initial|]. split.
    + split; [constructor|done].
    + split; [by intros ?%Exists_nil|]. intros (before & line & after & Heq & _).
      by destruct before.
  - destruct (step_effect st l Hst) as (st' & Hstep & Hst' & Hg' & Hd').
    exists st'. rewrite run_app, Hrun. cbn [mbind outcome_bind]. unfold run at 1.
    cbn [for_each]. rewrite Hstep. split; [done|]. split; [done|]. split.
    + rewrite Hg', Hg, Forall_app, Forall_singleton. done.
    + rewrite early_close_snoc, Hd'. destruct (closes l).
      * rewrite has_none_append, Hd, Hg. tauto.
      * rewrite Hd. split; [tauto|]. intros [?|[? _]]; done.
Qed.

(** X14. The program ends with an exception exactly when a block-close
    line comes before the first block-open line of the input; on every
    other input it stores the rows of the dictionary the main loop
    built. *)
Theorem extract_spec (lines : list str) :
  (early_close lines -> extract lines = Raise AttributeError)
  /\ (~ early_close lines ->
      exists st, run initial lines = Ok st /\
        extract lines = Ok (all_rows (all_translations st))).
Proof.
  destruct (run_early_close lines) as (st & Hrun & _ & _ & Hd).
  unfold extract. rewrite Hrun. cbn [mbind outcome_bind].
  destruct (output_loop (all_translations st) []) as [H1 H2]. split.
  - intros He. by apply H1, Hd.
  - intros He. exists st. split; [done|]. apply H2. by rewrite Hd.
Qed.

Lemma extract_spec_witness :
  extract [ln "<title>Word</title>"; ln "{{trans-mid}}"; ln "{{trans-bottom}}";
           ln "{{trans-top|greeting}}"]
    = Raise AttributeError.
Proof.
  apply (proj1 (extract_spec _)).
  exists [ln "<title>Word</title>"; ln "{{trans-mid}}"], (ln "{{trans-bottom}}"),
    [ln "{{trans-top|greeting}}"].
  split; [reflexivity|]. split; [vm_compute; reflexivity|].
  repeat constructor.
Defined.

(** ** Finding the template calls of a line *)

Lemma lazy_body_plain (body after : str) :
  125%N ∉ body -> 10%N ∉ body ->
  Re.lazy_body (body ++ py "}}" ++ after) = Some (body ++ py "}}").
Proof.
  induction body as [|c body IH]; intros Hb Hn.
  - cbn [app]. destruct (py "}}" ++ after) eqn:E; cbn [Re.lazy_body];
      rewrite <- E, startswith_app; done.
  - apply not_elem_of_cons in Hb as [Hc Hb]. apply not_elem_of_cons in Hn as [Hc' Hn].
    cbn [app Re.lazy_body].
    assert (Py.startswith (py "}}") (c :: body ++ py "}}" ++ after) = false) as ->.
    { change (py "}}") with [125%N; 125%N] at 1. cbn [Py.startswith].
      by apply N.eqb_neq in Hc as ->. }
    assert ((c =? 10)%N = false) as -> by (apply N.eqb_neq; congruence).
    by rewrite (IH Hb Hn).
Qed.

Lemma match_at_call (body after : str) :
  125%N ∉ body -> 10%N ∉ body ->
  Re.match_at (py "{{" ++ body ++ py "}}" ++ after) = Some (py "{{" ++ body ++ py "}}").
Proof.
  intros Hb Hn. unfold Re.match_at. rewrite startswith_app.
  change (drop 2 (py "{{" ++ body ++ py "}}" ++ after)) with (body ++ py "}}" ++ after).
  by rewrite (lazy_body_plain _ _ Hb Hn).
Qed.

Lemma finditer_from_skip (x y : str) :
  Re.finditer_from (length x) (x ++ y) = Re.finditer_from 0 y.
Proof. induction x as [|c x IH]; [done|]. exact IH. Qed.

Lemma match_at_other (c : N) (s : str) : c <> 123%N -> Re.match_at (c :: s) = None.
Proof.
  intros Hc. unfold Re.match_at. change (py "{{") with [123%N; 123%N].
  cbn [Py.startswith]. assert ((123 =? c)%N = false) as ->; [|done].
  apply N.eqb_neq. congruence.
Qed.

Lemma finditer_no_brace (before s : str) :
  123%N ∉ before -> Re.finditer_from 0 (before ++ s) = Re.finditer_from 0 s.
Proof.
  induction before as [|c before IH]; intros Hb; [done|].
  apply not_elem_of_cons in Hb as [Hc Hb]. cbn [app Re.finditer_from].
  rewrite match_at_other by congruence. by apply IH.
Qed.

Lemma finditer_from_match (c : N) (s m : str) :
  Re.match_at (c :: s) = Some m ->
  Re.finditer_from 0 (c :: s) = m :: Re.finditer_from (length m - 1) s.
Proof. intros H. cbn [Re.finditer_from]. by rewrite H. Qed.

Lemma codeblocks_call (before body after : str) :
  123%N ∉ before -> 125%N ∉ body -> 10%N ∉ body ->
  codeblocks (before ++ py "{{" ++ body ++ py "}}" ++ after)
    = Py.split 124 body :: codeblocks after.
Proof.
  intros Hbefore Hb Hn. unfold codeblocks, Re.finditer.
  rewrite (finditer_no_brace _ _ Hbefore).
  assert (Re.finditer_from 0 (py "{{" ++ body ++ py "}}" ++ after)
          = (py "{{" ++ body ++ py "}}") :: Re.finditer_from 0 after) as ->.
  { pose proof (match_at_call body after Hb Hn) as Hm.
    change (py "{{" ++ body ++ py "}}" ++ after)
      with (123%N :: (123%N :: body ++ py "}}" ++ after)) in *.
    rewrite (finditer_from_match _ _ _ Hm). f_equal.
    replace (length (py "{{" ++ body ++ py "}}") - 1)%nat
      with (length ((123%N :: body) ++ py "}}"))
      by (change (py "{{" ++ body ++ py "}}") with (123%N :: (123%N :: body) ++ py "}}");
          cbn [length]; lia).
    replace (123%N :: body ++ py "}}" ++ after)
      with (((123%N :: body) ++ py "}}") ++ after)
      by (by rewrite <- app_assoc).
    apply finditer_from_skip. }
  rewrite fmap_cons. f_equal.
  change (py "{{") with [123%N; 123%N]. change (py "}}") with [125%N; 125%N].
  by rewrite slice_inside.
Qed.

(** X15. A template call whose text has no closing brace and no
    newline, after a text without an opening brace, is the first token
    group of the segment: its text split at the vertical bars; the scan
    goes on behind its closing braces. *)
Theorem codeblocks_finds_call (before body after : str) :
  123%N ∉ before -> 125%N ∉ body -> 10%N ∉ body ->
  codeblocks (before ++ py "{{" ++ body ++ py "}}" ++ after)
    = Py.split 124 body :: codeblocks after.
Proof. apply codeblocks_call. Qed.

Lemma codeblocks_finds_call_witness :
  codeblocks (py "* Spanish: " ++ py "{{" ++ py "t|es|hola" ++ py "}}" ++ py " {{q}}")
    = Py.split 124 (py "t|es|hola") :: codeblocks (py " {{q}}").
Proof.
  apply codeblocks_finds_call; intros H%contains_single; by vm_compute in H.
Defined.

Lemma split_none (sep : N) (s : str) : sep ∉ s -> Py.split sep s = [s].
Proof.
  induction s as [|c s IH]; intros Hs; [done|].
  apply not_elem_of_cons in Hs as [Hc Hs].
  destruct (split_cons_other sep c s) as (seg & segs & E & ->); [congruence|].
  rewrite (IH Hs) in E. by injection E as <- <-.
Qed.

Lemma plain_free (s : str) (c : N) :
  plain s -> c ∈ [10; 44; 61; 123; 124; 125]%N -> c ∉ s.
Proof.
  unfold plain. rewrite Forall_forall. intros Hs Hc Hin. by apply (Hs c Hin).
Qed.

Lemma accepted_type_chars (type : str) (c : N) :
  type ∈ accepted_types -> c ∈ [10; 44; 124; 125]%N -> c ∉ type.
Proof.
  unfold accepted_types. intros Ht Hc.
  repeat (apply elem_of_cons in Hc as [->|Hc]);
    [..|by apply not_elem_of_nil in Hc];
    repeat (apply elem_of_cons in Ht as [->|Ht]);
    try (by apply not_elem_of_nil in Ht);
    intros H%contains_single; by vm_compute in H.
Qed.

Lemma codeblocks_no_brace (s : str) : 123%N ∉ s -> codeblocks s = [].
Proof.
  intros Hs. unfold codeblocks, Re.finditer.
  rewrite <- (app_nil_r s), (finditer_no_brace _ _ Hs). done.
Qed.

(** X16. A line that holds one translation call [{{type|lc|text}}]
    with an accepted name, around it only text without commas and
    opening braces, and in the language code and the text none of the
    characters newline, comma, [=], braces and vertical bar, appends to
    the open group exactly one entry: that language code and that text,
    marked equivalent, every optional field unset (the language code
    must not contain the closing link marker). *)
Theorem tokenize_line_single_call (g : TranslationGroup)
    (type lc text before after : str) :
  type ∈ accepted_types -> plain lc -> plain text ->
  Py.contains (py "]]") lc = false ->
  123%N ∉ before -> 44%N ∉ before -> 123%N ∉ after -> 44%N ∉ after ->
  tokenize_line (Some g)
    (before ++ py "{{" ++ (type ++ py "|" ++ lc ++ py "|" ++ text) ++ py "}}" ++ after)
    = Ok (Some (extended g [new_Translation lc text])).
Proof.
  intros Ht Hlc Htext Hlinks Hb1 Hb2 Ha1 Ha2.
  assert (forall c, c ∈ [10; 44; 125]%N ->
            c ∉ type ++ py "|" ++ lc ++ py "|" ++ text) as Hbody.
  { intros c Hc. change (py "|") with [124%N].
    rewrite !not_elem_of_app, !not_elem_of_cons.
    assert (c <> 124%N /\ c ∈ [10; 44; 124; 125]%N /\ c ∈ [10; 44; 61; 123; 124; 125]%N)
      as (Hne & Hc1 & Hc2).
    { repeat (apply elem_of_cons in Hc as [->|Hc]);
        [..|by apply not_elem_of_nil in Hc]; (split; [done|split; repeat constructor]). }
    repeat split; try done; try apply not_elem_of_nil.
    - by apply accepted_type_chars.
    - by apply plain_free.
    - by apply plain_free. }
  assert (44%N ∉ before ++ py "{{" ++ (type ++ py "|" ++ lc ++ py "|" ++ text)
                 ++ py "}}" ++ after) as Hcomma.
  { apply not_elem_of_app. split; [done|].
    apply not_elem_of_app. split; [intros H%contains_single; by vm_compute in H|].
    apply not_elem_of_app. split; [apply Hbody; repeat constructor|].
    apply not_elem_of_app. split; [intros H%contains_single; by vm_compute in H|done]. }
  unfold tokenize_line. rewrite (split_none _ _ Hcomma). cbn [for_each].
  unfold segment_step.
  rewrite codeblocks_call; [|done|apply Hbody; repeat constructor..].
  rewrite (codeblocks_no_brace _ Ha1).
  change (py "|") with [124%N]. cbn [app].
  rewrite split_prefix by (apply accepted_type_chars; [done|repeat constructor]).
  rewrite split_prefix by (apply plain_free; [done|repeat constructor]).
  rewrite split_none by (apply plain_free; [done|repeat constructor]).
  cbn [for_each]. rewrite codeblock_step_decode; [|done|].
  - rewrite decode_term_plain; [done|done| |].
    + repeat constructor; apply plain_free; try done; repeat constructor.
    + done.
  - intros (rest & _ & [= -> _]). by apply qualifier_not_accepted.
Qed.

Lemma tokenize_line_single_call_witness :
  tokenize_line (Some (mkTranslationGroup (py "greeting") []))
    (py "* Spanish: " ++ py "{{" ++ (py "t+" ++ py "|" ++ py "es" ++ py "|" ++ py "hola")
     ++ py "}}" ++ [10%N])
    = Ok (Some (extended (mkTranslationGroup (py "greeting") [])
                  [new_Translation (py "es") (py "hola")])).
Proof.
  apply tokenize_line_single_call.
  - unfold accepted_types. apply elem_of_cons. right. apply elem_of_cons. by left.
  - repeat constructor; intros H%contains_single; by vm_compute in H.
  - repeat constructor; intros H%contains_single; by vm_compute in H.
  - vm_compute. reflexivity.
  - intros H%contains_single. by vm_compute in H.
  - intros H%contains_single. by vm_compute in H.
  - intros H%contains_single. by vm_compute in H.
  - intros H%contains_single. by vm_compute in H.
Defined.

(** ** Removing the link markers *)

Section ReplacePair.

Variable c : N.

Lemma replace_pair_match (t : str) :
  Py.replace [c; c] [] (c :: c :: t) = Py.replace [c; c] [] t.
Proof.
  unfold Py.replace. cbn [Py.replace_from Py.startswith]. by rewrite N.eqb_refl.
Qed.

Lemma replace_pair_keep (a : N) (t : str) :
  Py.startswith [c; c] (a :: t) = false ->
  Py.replace [c; c] [] (a :: t) = a :: Py.replace [c; c] [] t.
Proof. intros H. unfold Py.replace. cbn [Py.replace_from]. by rewrite H. Qed.

Lemma replace_pair_head (s : str) :
  head s <> Some c -> head (Py.replace [c; c] [] s) <> Some c.
Proof.
  destruct s as [|a t]; [done|]. intros Ha. rewrite replace_pair_keep; [done|].
  cbn [Py.startswith]. assert ((c =? a)%N = false) as ->; [|done].
  apply N.eqb_neq. intros ->. by apply Ha.
Qed.

Lemma startswith_pair (a : N) (s : str) :
  Py.startswith [c; c] (a :: s) = true <-> a = c /\ head s = Some c.
Proof.
  cbn [Py.startswith]. rewrite andb_true_iff, N.eqb_eq. destruct s as [|b s]; cbn [head].
  - split; [by intros [_ ?] | by intros [_ ?]].
  - rewrite andb_true_r, N.eqb_eq. split; [by intros [-> ->] | by intros [-> [= ->]]].
Qed.

Lemma replace_pair_clean (n : nat) : forall s : str,
  (length s <= n)%nat -> Py.find [c; c] (Py.replace [c; c] [] s) = None.
Proof.
  induction n as [|n IH]; intros s Hlen.
  - destruct s; [done | simpl in Hlen; lia].
  - destruct s as [|a t]; [done|].
    destruct (Py.startswith [c; c] (a :: t)) eqn:Hs.
    + apply startswith_pair in Hs as [-> Ht]. destruct t as [|b t]; [done|].
      injection Ht as ->. rewrite replace_pair_match. apply IH. simpl in Hlen. lia.
    + rewrite (replace_pair_keep _ _ Hs). cbn [Py.find].
      rewrite IH by (simpl in Hlen; lia).
      destruct (Py.startswith [c; c] (a :: Py.replace [c; c] [] t)) eqn:Hs2; [|done].
      apply startswith_pair in Hs2 as [-> Hhead].
      destruct (decide (head t = Some c)) as [Ht|Ht].
      * assert (Py.startswith [c; c] (c :: t) = true) by (by apply startswith_pair).
        congruence.
      * by destruct (replace_pair_head t Ht).
Qed.

End ReplacePair.

(** X17. The text the decoder produces when it removes the link markers
    never contains the closing marker; the opening marker can come back
    when the removal of a closing marker brings two opening brackets
    together. *)
Theorem strip_links_clean :
  (forall text, Py.contains (py "]]") (strip_links text) = false)
  /\ strip_links (py "[]][") = py "[[".
Proof.
  split; [|by vm_compute].
  intros text. unfold strip_links, Py.contains. change (py "]]") with [93%N; 93%N].
  by rewrite (replace_pair_clean 93 _ _ (Nat.le_refl _)).
Qed.

(** ** The tokenizer only appends *)

(** X18. With a group open, tokenizing a line never raises.  It keeps
    the meaning and the entries the group already has and appends
    entries that are each the result of decoding one template call,
    with a qualifier attached. *)
Theorem tokenize_line_appends (g : TranslationGroup) (line : str) :
  exists new,
    tokenize_line (Some g) line
      = Ok (Some (mkTranslationGroup (meaning g) (translations g ++ new)))
    /\ Forall (fun t => exists codeblock e q,
                 decode_term codeblock = Ok e /\ t = set_qualifier q e) new.
Proof. apply tokenize_line_total. Qed.

(** ** Qualifiers and the segments of a line *)





(** ** Title lines *)

Lemma title_line_padded (ws1 ws2 title : str) :
  Forall (fun c => Py.isspace c = true) ws1 ->
  Forall (fun c => Py.isspace c = true) ws2 ->
  is_title (ws1 ++ (py "<title>" ++ title ++ py "</title>") ++ ws2) = true
  /\ raw_title (ws1 ++ (py "<title>" ++ title ++ py "</title>") ++ ws2) = title.
Proof.
  intros H1 H2. split.
  - unfold is_title. rewrite <- (app_assoc (py "<title>")). apply contains_infix.
  - unfold raw_title. rewrite (strip_padded _ _ _ H1 H2).
    + apply (slice_between (py "<title>") title (py "</title>")). vm_compute. lia.
    + by exists 60%N, (py "title>" ++ title ++ py "</title>").
    + exists (py "<title>" ++ title ++ py "</title"), 62%N.
      by rewrite <- !app_assoc.
Qed.

(** C9, as the spec words it, fails: a line can contain the page-title
    marker without starting with it, and then the page key is not the
    title between the tags.  On [x<title>Word</title>] the key is
    [>Word]. *)
Lemma title_line_offsets :
  is_title (ln "x<title>Word</title>") = true
  /\ step initial (ln "x<title>Word</title>")
     = Ok (mkState (Some (py ">Word")) false None [])
  /\ ~ (forall st before title after,
          step st (before ++ py "<title>" ++ title ++ py "</title>" ++ after)
            = Ok (mkState (Some (merge_subpage title)) (recording st) (group st)
                    (all_translations st))).
Proof.
  split; [by vm_compute|]. split; [by vm_compute|].
  intros Hall. specialize (Hall initial (py "x") (py "Word") [10%N]).
  by vm_compute in Hall.
Qed.

(** C9, amended. On a line that is, up to white space around it, the
    opening title tag, a title and the closing title tag, the title
    becomes the page key, with a trailing [/translations] removed so
    that the sub-page is filed under its parent: [Word/translations]
    gives the key [Word].  On every line that contains the page-title
    marker the key is the stripped line without its first 7 and its
    last 8 characters, the suffix removed in the same way.  A title
    line leaves the recording flag, the open group and the dictionary
    as they were. *)
Theorem title_line :
  (forall st ws1 ws2 title,
     Forall (fun c => Py.isspace c = true) ws1 ->
     Forall (fun c => Py.isspace c = true) ws2 ->
     step st (ws1 ++ (py "<title>" ++ title ++ py "</title>") ++ ws2)
       = Ok (mkState (Some (merge_subpage title)) (recording st) (group st)
               (all_translations st)))
  /\ (forall st line, is_title line = true ->
        step st line
          = Ok (mkState
                  (Some (merge_subpage (Py.slice (Some 7) (Some (-8)) (Py.strip line))))
                  (recording st) (group st) (all_translations st)))
  /\ (forall parent, merge_subpage (parent ++ py "/translations") = parent)
  /\ (forall title, (forall parent, title <> parent ++ py "/translations") ->
        merge_subpage title = title)
  /\ merge_subpage (py "Word/translations") = py "Word"
  /\ step initial (ln "    <title>Word/translations</title>")
     = Ok (mkState (Some (py "Word")) false None []).
Proof.
  split; [|split; [|split; [|split; [|split]]]].
  - intros st ws1 ws2 title H1 H2.
    destruct (title_line_padded ws1 ws2 title H1 H2) as [Hin Hraw].
    unfold step. unfold is_title in Hin. by rewrite Hin, Hraw.
  - intros st line H. unfold step. unfold is_title in H. by rewrite H.
  - intros parent. unfold merge_subpage. rewrite endswith_app.
    apply (slice_drop_suffix parent (py "/translations")). vm_compute. lia.
  - intros title Hno. unfold merge_subpage.
    destruct (Py.endswith (py "/translations") title) eqn:E; [|done].
    apply endswith_inv in E as [parent ->]. by destruct (Hno parent).
  - vm_compute. reflexivity.
  - vm_compute. reflexivity.
Qed.

Lemma title_line_witness :
  step (mkState (Some (py "old")) true (Some (mkTranslationGroup (py "sense") [])) [])
       (py "  " ++ (py "<title>" ++ py "cat/translations" ++ py "</title>") ++ [10%N])
    = Ok (mkState (Some (py "cat")) true (Some (mkTranslationGroup (py "sense") [])) []).
Proof.
  rewrite (proj1 title_line
             (mkState (Some (py "old")) true (Some (mkTranslationGroup (py "sense") [])) [])
             (py "  ") [10%N] (py "cat/translations")).
  - vm_compute. reflexivity.
  - repeat constructor.
  - repeat constructor.
Defined.
